(** * Shader objects and uniform binding of go-allegro (allegro/shader.go)

    A shallow embedding of the Go wrapper around Allegro's shader API.
    The Go functions are written in a small statement monad with early
    [return], [defer] and run-time panics; the C side (the Allegro library,
    the C heap) is an explicit state: a heap of live C blocks and a trace
    of every C-level event, each Allegro call recorded together with its
    result and with the C heap it could read. *)

From Stdlib Require Import ZArith Lia Ascii.
From stdpp Require Import gmap strings list pretty.

Local Open Scope Z_scope.

(** ** Machine integers *)

(** Two's complement reduction of [z] to [bits] bits. *)
Definition wrap (bits : Z) (z : Z) : Z :=
  let r := z mod 2 ^ bits in
  if r <? 2 ^ (bits - 1) then r else r - 2 ^ bits.

(** Go's [int] on the 64-bit targets, cgo's [C.int], [C.size_t] and the
    [uint32] that cgo uses for C enumerations. *)
Definition int (z : Z) : Z := wrap 64 z.
Definition C_int (z : Z) : Z := wrap 32 z.
Definition C_size_t (z : Z) : Z := z mod 2 ^ 64.
Definition C_enum (z : Z) : Z := z mod 2 ^ 32.

Definition int_mul (a b : Z) : Z := int (a * b).
Definition int_add (a b : Z) : Z := int (a + b).
Definition size_t_mul (a b : Z) : Z := C_size_t (a * b).

(** [unsafe.Sizeof(C.int(0))] and [unsafe.Sizeof(C.float(0.0))]. *)
Definition Sizeof_C_int : Z := 4.
Definition Sizeof_C_float : Z := 4.

(** [len] of a slice, as a Go [int]. *)
Definition len {A} (l : list A) : Z := Z.of_nat (length l).

(** A [float32] is carried around by its IEEE-754 binary32 encoding; the
    code only moves such values, it never computes with them. *)
Record float32 := Float32frombits { Float32bits : Z }.

(** [C.float] and [float32] are the same binary32 format. *)
Definition C_float (f : float32) : float32 := f.

(** ** Strings and errors *)

Definition dquote : string := String "034"%char EmptyString.

(** [fmt.Sprintf] restricted to the one verb the file uses: every [%s] of
    the format is replaced by the argument, all other bytes are copied. *)
Fixpoint Sprintf (format : string) (arg : string) : string :=
  match format with
  | EmptyString => EmptyString
  | String c rest =>
      match rest with
      | String d rest' =>
          if (Ascii.eqb c "%"%char && Ascii.eqb d "s"%char)%bool
          then arg +:+ Sprintf rest' arg
          else String c (Sprintf rest arg)
      | EmptyString => String c EmptyString
      end
  end.

(** Go error values.  [ShaderIsNull] is the package-level sentinel of
    shader.go; [errorString] is what [errors.New] and [fmt.Errorf] build.
    Modelled from the spec: [BitmapIsNull] is declared in a file of the
    package that is not among the sources; it is the spec's distinct
    "null texture" condition, a sentinel of its own. *)
Inductive error :=
| ShaderIsNull
| BitmapIsNull
| errorString (s : string).

Definition errors_New (text : string) : error := errorString text.
Definition fmt_Errorf (format : string) (arg : string) : error :=
  errorString (Sprintf format arg).

(** [strings.Contains], as a proposition. *)
Definition Contains (s substr : string) : Prop :=
  ∃ pre post : string, s = pre +:+ substr +:+ post.

(** ** Exported constants *)

Definition SHADER_VAR_COLOR : string := "al_color".
Definition SHADER_VAR_POS : string := "al_pos".
Definition SHADER_VAR_PROJVIEW_MATRIX : string := "al_projview_matrix".
Definition SHADER_VAR_TEX : string := "al_tex".
Definition SHADER_VAR_TEXCOORD : string := "al_texcoord".
Definition SHADER_VAR_TEX_MATRIX : string := "al_tex_matrix".
Definition SHADER_VAR_USER_ATTR : string := "al_user_attr_".
Definition SHADER_VAR_USE_TEX : string := "al_use_tex".
Definition SHADER_VAR_USE_TEX_MATRIX : string := "al_use_tex_matrix".

(** The constant block of shader.go, in declaration order. *)
Definition shader_vars : list (string * string) :=
  [ ("SHADER_VAR_COLOR", SHADER_VAR_COLOR);
    ("SHADER_VAR_POS", SHADER_VAR_POS);
    ("SHADER_VAR_PROJVIEW_MATRIX", SHADER_VAR_PROJVIEW_MATRIX);
    ("SHADER_VAR_TEX", SHADER_VAR_TEX);
    ("SHADER_VAR_TEXCOORD", SHADER_VAR_TEXCOORD);
    ("SHADER_VAR_TEX_MATRIX", SHADER_VAR_TEX_MATRIX);
    ("SHADER_VAR_USER_ATTR", SHADER_VAR_USER_ATTR);
    ("SHADER_VAR_USE_TEX", SHADER_VAR_USE_TEX);
    ("SHADER_VAR_USE_TEX_MATRIX", SHADER_VAR_USE_TEX_MATRIX) ].

(** ** The C side *)

(** Native objects (shaders, bitmaps, transforms) are opaque handles; a Go
    pointer to one is [None] when nil. *)
Definition handle := positive.
Definition ShaderType := Z.
Definition ShaderPlatform := Z.

(** A C pointer: [None] is NULL, [Some p] the address of a live or dead
    block. *)
Definition pointer := option positive.

(** 4-byte scalars stored in C memory. *)
Inductive cval :=
| CInt (z : Z)
| CFloat (f : float32).

(** A block of the C heap: a NUL-terminated copy of a Go string, or
    [size] bytes from the allocator viewed as 4-byte cells, the cells
    never written being absent, or a block that a store outside of its
    target may have overwritten, so that what it holds is not known. *)
Inductive Block :=
| CStr (s : string)
| CMem (size : Z) (cells : gmap Z cval)
| CLost.

(** Calls into the Allegro library, with the arguments as C receives
    them. *)
Inductive Call :=
| al_create_shader (platform : Z)
| al_attach_shader_source (s : option handle) (stype : Z) (source : pointer)
| al_attach_shader_source_file (s : option handle) (stype : Z) (filename : pointer)
| al_build_shader (s : option handle)
| al_get_shader_log (s : option handle)
| al_get_shader_platform (s : option handle)
| al_use_shader (s : option handle)
| al_destroy_shader (s : option handle)
| al_set_shader_sampler (name : pointer) (bmp : option handle) (unit : Z)
| al_set_shader_matrix (name : pointer) (matrix : option handle)
| al_set_shader_int (name : pointer) (i : Z)
| al_set_shader_float (name : pointer) (f : float32)
| al_set_shader_int_vector (name : pointer) (num_components : Z) (i : pointer) (num_elems : Z)
| al_set_shader_float_vector (name : pointer) (num_components : Z) (f : pointer) (num_elems : Z)
| al_set_shader_bool (name : pointer) (b : bool)
| al_get_default_shader_source (platform : Z) (type : Z).

Inductive Resp :=
| RBool (b : bool)
| RShader (s : option handle)
| RString (s : string)
| RInt (z : Z)
| RVoid.

(** Everything the Go code does to the C side, in order. *)
Inductive Event :=
| EvCall (c : Call) (r : Resp) (mem : gmap positive Block)
| EvCString (s : string) (p : positive)
| EvMalloc (size : Z) (p : pointer)
| EvStore (p : positive) (idx : Z) (v : cval)
| EvFree (p : pointer)
| EvFreeString (p : pointer).

(** The two calls the file defers. *)
Inductive Deferred :=
| freeString (data : pointer)
| free (data : pointer).

Record State := mkState {
  heap : gmap positive Block;   (* live C blocks *)
  next : positive;              (* next address the allocator hands out *)
  trace : list Event;           (* oldest event first *)
  defers : list Deferred        (* deferred calls of the running function, newest first *)
}.

(** The environment: what the Allegro library answers to a call, and
    whether the allocator can serve a request, both as functions of the
    events so far and of the C heap at that moment. *)
Record Native := mkNative {
  native_bool : list Event → gmap positive Block → Call → bool;
  native_shader : list Event → gmap positive Block → Call → option handle;
  native_string : list Event → gmap positive Block → Call → string;
  native_int : list Event → gmap positive Block → Call → Z;
  native_alloc : list Event → gmap positive Block → Z → bool
}.

(** ** Go statements: early return, panics, defer *)

Inductive res (R A : Type) :=
| Normal (a : A)          (* fall through to the next statement *)
| Returned (r : R)        (* a [return] statement was executed *)
| Panicking (msg : string).
Arguments Normal {R A} a.
Arguments Returned {R A} r.
Arguments Panicking {R A} msg.

(** A statement inside a function whose result type is [R]. *)
Definition Stmt (R A : Type) : Type := State → res R A * State.

(** What a call of a Go function gives its caller. *)
Inductive outcome (R : Type) :=
| Done (r : R)
| Panicked (msg : string).
Arguments Done {R} r.
Arguments Panicked {R} msg.

Definition Go (R : Type) : Type := State → outcome R * State.

Definition pure {R A} (a : A) : Stmt R A := λ s, (Normal a, s).
Definition return_ {R A} (r : R) : Stmt R A := λ s, (Returned r, s).
Definition panic {R A} (msg : string) : Stmt R A := λ s, (Panicking msg, s).

Definition bind {R A B} (c : Stmt R A) (k : A → Stmt R B) : Stmt R B :=
  λ s, match c s with
       | (Normal a, s') => k a s'
       | (Returned r, s') => (Returned r, s')
       | (Panicking msg, s') => (Panicking msg, s')
       end.

Declare Scope go_scope.
Delimit Scope go_scope with go.
Bind Scope go_scope with Stmt.
Notation "x <- c ;; k" := (bind c (λ x, k))
  (at level 100, c at next level, k at level 200, right associativity) : go_scope.
Notation "c ;; k" := (bind c (λ _, k))
  (at level 100, k at level 200, right associativity) : go_scope.

(** [if cond { body }] with nothing to do otherwise. *)
Definition when {R} (cond : bool) (body : Stmt R unit) : Stmt R unit :=
  if cond then body else pure tt.

(** [for _, x := range l { acc = body x acc }]: the loop-carried
    variables are [acc]. *)
Fixpoint for_range {R A B} (l : list A) (acc : B) (body : A → B → Stmt R B) : Stmt R B :=
  match l with
  | [] => pure acc
  | x :: l' => (acc' <- body x acc ;; for_range l' acc' body)%go
  end.

Definition emit (e : Event) (s : State) : State :=
  mkState (heap s) (next s) (trace s ++ [e]) (defers s).

Definition release (p : pointer) (h : gmap positive Block) : gmap positive Block :=
  match p with
  | Some a => delete a h
  | None => h
  end.

(** Modelled from the spec: the package helpers [free] and [freeString]
    are not among the sources; they release the block they are given
    (the spec's "release the scratch buffer"), and do nothing to NULL. *)
Definition run_deferred (d : Deferred) (s : State) : State :=
  match d with
  | freeString p => mkState (release p (heap s)) (next s) (trace s ++ [EvFreeString p]) (defers s)
  | free p => mkState (release p (heap s)) (next s) (trace s ++ [EvFree p]) (defers s)
  end.

(** [defer f(x)]: the call is pushed on the running function's list. *)
Definition defer {R} (d : Deferred) : Stmt R unit :=
  λ s, (Normal tt, mkState (heap s) (next s) (trace s) (d :: defers s)).

(** A function body: it starts with no deferred call, and when it ends,
    by falling off its last statement, by [return] or by a panic, its
    deferred calls run, last deferred first, before the caller resumes. *)
Definition func {R} (body : Stmt R R) : Go R :=
  λ s, let '(r, s1) := body (mkState (heap s) (next s) (trace s) []) in
       let s2 := foldl (λ st d, run_deferred d st) s1 (defers s1) in
       (match r with
        | Normal v | Returned v => Done v
        | Panicking msg => Panicked msg
        end,
        mkState (heap s2) (next s2) (trace s2) (defers s)).

(** ** C memory seen from Go *)

(** The length of the Go array type [[1<<30 - 1]C.int] (and
    [[1<<30 - 1]C.float]) through which the scratch buffer is written. *)
Definition garr_len : Z := 2 ^ 30 - 1.

(** The text of the run-time error Go raises for an index outside an
    array of [length] elements, and for a write through a nil pointer. *)
Definition index_panic (idx length : Z) : string :=
  if idx <? 0 then "runtime error: index out of range [" +:+ pretty idx +:+ "]"
  else "runtime error: index out of range [" +:+ pretty idx +:+ "] with length "
         +:+ pretty length.
Definition nil_panic : string :=
  "runtime error: invalid memory address or nil pointer dereference".

(** Cell [idx] lies inside a block of [size] bytes. *)
Definition in_block (size idx : Z) : bool :=
  (0 <=? idx) && (4 * idx + 4 <=? size).

(** The heap after a store that missed its block: the blocks are still
    allocated, what they hold is no longer known. *)
Definition overrun (h : gmap positive Block) : gmap positive Block :=
  (λ _ : Block, CLost) <$> h.

(** The effect of the C store [garr[idx] = v] on the heap.  The store is
    not checked against the block: it writes the four bytes at offset
    [4 * idx] from [p].  Inside the block this updates the cell.  Past
    the end of the block it overwrites what lies behind it: the bytes of
    the block itself are not touched, every other block is lost.  A store
    through a pointer to no scratch block at all loses every block. *)
Definition poke (p : positive) (idx : Z) (v : cval) (h : gmap positive Block)
  : gmap positive Block :=
  match h !! p with
  | Some (CMem size cells) =>
      if in_block size idx then <[p := CMem size (<[idx := v]> cells)]> h
      else <[p := CMem size cells]> (overrun h)
  | _ => overrun h
  end.

Section Go.
Context (N : Native).

(** A call into Allegro that returns a C [bool]. *)
Definition call_bool {R} (c : Call) : Stmt R bool :=
  λ s, let ok := native_bool N (trace s) (heap s) c in
       (Normal ok, emit (EvCall c (RBool ok) (heap s)) s).

Definition call_shader {R} (c : Call) : Stmt R (option handle) :=
  λ s, let h := native_shader N (trace s) (heap s) c in
       (Normal h, emit (EvCall c (RShader h) (heap s)) s).

(** A call that returns a C string, already read by [C.GoString]. *)
Definition call_string {R} (c : Call) : Stmt R string :=
  λ s, let str := native_string N (trace s) (heap s) c in
       (Normal str, emit (EvCall c (RString str) (heap s)) s).

Definition call_int {R} (c : Call) : Stmt R Z :=
  λ s, let z := native_int N (trace s) (heap s) c in
       (Normal z, emit (EvCall c (RInt z) (heap s)) s).

Definition call_void {R} (c : Call) : Stmt R unit :=
  λ s, (Normal tt, emit (EvCall c RVoid (heap s)) s).

(** [C.CString]: a fresh C copy of a Go string. *)
Definition CString {R} (str : string) : Stmt R pointer :=
  λ s, let p := next s in
       (Normal (Some p),
        mkState (<[p := CStr str]> (heap s)) (Pos.succ p)
                (trace s ++ [EvCString str p]) (defers s)).

(** Modelled from the spec: the package helper [malloc] is not among
    the sources; it is the spec's "allocate a scratch buffer": NULL
    when the allocator cannot serve the request, else a fresh block of
    [size] bytes with nothing written in it. *)
Definition malloc {R} (size : Z) : Stmt R pointer :=
  λ s, if native_alloc N (trace s) (heap s) size then
         let p := next s in
         (Normal (Some p),
          mkState (<[p := CMem size ∅]> (heap s)) (Pos.succ p)
                  (trace s ++ [EvMalloc size (Some p)]) (defers s))
       else (Normal None, emit (EvMalloc size None) s).

(** [garr[idx] = v] where [garr] is the block viewed as a Go array of
    [garr_len] cells: Go checks [idx] against the array length, not
    against the size of the block. *)
Definition store {R} (garr : pointer) (idx : Z) (v : cval) : Stmt R unit :=
  λ s, if (0 <=? idx) && (idx <? garr_len) then
         match garr with
         | Some p =>
             (Normal tt,
              mkState (poke p idx v (heap s)) (next s)
                      (trace s ++ [EvStore p idx v]) (defers s))
         | None => (Panicking nil_panic, s)
         end
       else (Panicking (index_panic idx garr_len), s).

Definition is_nil {A} (p : option A) : bool :=
  match p with None => true | Some _ => false end.

Local Open Scope go_scope.

(** ** shader.go *)

Definition CreateShader (platform : ShaderPlatform)
  : Go (option handle * option error) :=
  func (
    s <- call_shader (al_create_shader (C_enum platform)) ;;
    when (is_nil s) (return_ (None, Some (errors_New "failed to create shader"))) ;;
    return_ (s, None)).

Definition AttachSource (s : option handle) (stype : ShaderType) (source : string)
  : Go (option error) :=
  func (
    when (is_nil s) (return_ (Some ShaderIsNull)) ;;
    source_ <- CString source ;;
    defer (freeString source_) ;;
    ok <- call_bool (al_attach_shader_source s (C_enum stype) source_) ;;
    when (negb ok) (return_ (Some (errors_New "failed to attach shader source"))) ;;
    return_ None).

Definition AttachSourceFile (s : option handle) (stype : ShaderType) (filename : string)
  : Go (option error) :=
  func (
    when (is_nil s) (return_ (Some ShaderIsNull)) ;;
    filename_ <- CString filename ;;
    defer (freeString filename_) ;;
    ok <- call_bool (al_attach_shader_source_file s (C_enum stype) filename_) ;;
    when (negb ok)
      (return_ (Some (fmt_Errorf
         ("failed to attach shader source file " +:+ dquote +:+ "%s" +:+ dquote) filename))) ;;
    return_ None).

Definition Build (s : option handle) : Go (option error) :=
  func (
    when (is_nil s) (return_ (Some ShaderIsNull)) ;;
    ok <- call_bool (al_build_shader s) ;;
    when (negb ok) (return_ (Some (errors_New "failed to build shader"))) ;;
    return_ None).

Definition Log (s : option handle) : Go (string * option error) :=
  func (
    when (is_nil s) (return_ (EmptyString, Some ShaderIsNull)) ;;
    log <- call_string (al_get_shader_log s) ;;
    return_ (log, None)).

Definition Platform (s : option handle) : Go (ShaderPlatform * option error) :=
  func (
    when (is_nil s) (return_ (0, Some ShaderIsNull)) ;;
    p <- call_int (al_get_shader_platform s) ;;
    return_ (p, None)).

Definition UseShader (s : option handle) : Go (option error) :=
  func (
    ok <- call_bool (al_use_shader s) ;;
    when (negb ok) (return_ (Some (errors_New "failed to use shader"))) ;;
    return_ None).

Definition Destroy (s : option handle) : Go unit :=
  func (call_void (al_destroy_shader s)).

Definition SetShaderSampler (name : string) (bmp : option handle) (unit : Z)
  : Go (option error) :=
  func (
    when (is_nil bmp) (return_ (Some BitmapIsNull)) ;;
    name_ <- CString name ;;
    defer (freeString name_) ;;
    ok <- call_bool (al_set_shader_sampler name_ bmp (C_int unit)) ;;
    when (negb ok)
      (return_ (Some (fmt_Errorf
         ("failed to set shader sampler for " +:+ dquote +:+ "%s" +:+ dquote) name))) ;;
    return_ None).

Definition SetShaderMatrix (name : string) (matrix : option handle) : Go (option error) :=
  func (
    name_ <- CString name ;;
    defer (freeString name_) ;;
    ok <- call_bool (al_set_shader_matrix name_ matrix) ;;
    when (negb ok)
      (return_ (Some (fmt_Errorf
         ("failed to set shader matrix for " +:+ dquote +:+ "%s" +:+ dquote) name))) ;;
    return_ None).

Definition SetShaderInt (name : string) (i : Z) : Go (option error) :=
  func (
    name_ <- CString name ;;
    defer (freeString name_) ;;
    ok <- call_bool (al_set_shader_int name_ (C_int i)) ;;
    when (negb ok)
      (return_ (Some (fmt_Errorf
         ("failed to set shader int for " +:+ dquote +:+ "%s" +:+ dquote) name))) ;;
    return_ None).

Definition SetShaderFloat (name : string) (f : float32) : Go (option error) :=
  func (
    name_ <- CString name ;;
    defer (freeString name_) ;;
    ok <- call_bool (al_set_shader_float name_ (C_float f)) ;;
    when (negb ok)
      (return_ (Some (fmt_Errorf
         ("failed to set shader float for " +:+ dquote +:+ "%s" +:+ dquote) name))) ;;
    return_ None).

Definition SetShaderIntVector (name : string) (i : list (list Z)) : Go (option error) :=
  func (
    name_ <- CString name ;;
    defer (freeString name_) ;;
    ok <- (if len i =? 0 then
             call_bool (al_set_shader_int_vector name_ 0 None 0)
           else
             let elems := len i in
             let components := len (i !!! 0%nat) in
             cmem <- malloc (size_t_mul (C_size_t (int_mul elems components))
                                        (C_size_t Sizeof_C_int)) ;;
             when (is_nil cmem) (return_ (Some (errors_New "failed to allocate int vector"))) ;;
             defer (free cmem) ;;
             let garr := cmem in
             for_range i 0 (λ slice idx,
               for_range slice idx (λ elem idx,
                 store garr idx (CInt (C_int elem)) ;;
                 pure (int_add idx 1))) ;;
             call_bool (al_set_shader_int_vector name_ (C_int components) cmem (C_int elems))) ;;
    when (negb ok)
      (return_ (Some (fmt_Errorf
         ("failed to set int vector for " +:+ dquote +:+ "%s" +:+ dquote) name))) ;;
    return_ None).

Definition SetShaderFloatVector (name : string) (f : list (list float32))
  : Go (option error) :=
  func (
    name_ <- CString name ;;
    defer (freeString name_) ;;
    ok <- (if len f =? 0 then
             call_bool (al_set_shader_float_vector name_ 0 None 0)
           else
             let elems := len f in
             let components := len (f !!! 0%nat) in
             cmem <- malloc (size_t_mul (C_size_t (int_mul elems components))
                                        (C_size_t Sizeof_C_float)) ;;
             when (is_nil cmem) (return_ (Some (errors_New "failed to allocate float vector"))) ;;
             defer (free cmem) ;;
             let garr := cmem in
             for_range f 0 (λ slice idx,
               for_range slice idx (λ elem idx,
                 store garr idx (CFloat (C_float elem)) ;;
                 pure (int_add idx 1))) ;;
             call_bool (al_set_shader_float_vector name_ (C_int components) cmem (C_int elems))) ;;
    when (negb ok)
      (return_ (Some (fmt_Errorf
         ("failed to set float vector for " +:+ dquote +:+ "%s" +:+ dquote) name))) ;;
    return_ None).

Definition SetShaderBool (name : string) (b : bool) : Go (option error) :=
  func (
    name_ <- CString name ;;
    defer (freeString name_) ;;
    ok <- call_bool (al_set_shader_bool name_ b) ;;
    when (negb ok)
      (return_ (Some (fmt_Errorf
         ("failed to set shader bool for " +:+ dquote +:+ "%s" +:+ dquote) name))) ;;
    return_ None).

Definition DefaultShaderSource (platform : ShaderPlatform) (typ : ShaderType) : Go string :=
  func (
    cstr <- call_string (al_get_default_shader_source (C_enum platform) (C_enum typ)) ;;
    return_ cstr).

End Go.

(** ** The common shape of the two vector marshalers

    [SetShaderIntVector] and [SetShaderFloatVector] are the same text up
    to the scalar conversion, the element size, the Allegro entry point
    and the two messages.  [SetShaderVector] is that text with the five
    of them as parameters; the proofs below are done once, on it. *)

Section Marshal.
Context (N : Native) {A : Type}.
Context (conv : A → cval).
Context (entry : pointer → Z → pointer → Z → Call).
Context (elem_size : Z) (alloc_text fail_text : string).

Local Open Scope go_scope.

(** The body of the inner loop, and the two nested loops. *)
Definition fill_step (garr : pointer) (elem : A) (idx : Z) : Stmt (option error) Z :=
  store garr idx (conv elem) ;; pure (int_add idx 1).

Definition fill (garr : pointer) (rows : list (list A)) : Stmt (option error) Z :=
  for_range rows 0 (λ slice idx, for_range slice idx (fill_step garr)).

Definition SetShaderVector (name : string) (v : list (list A)) : Go (option error) :=
  func (
    name_ <- CString name ;;
    defer (freeString name_) ;;
    ok <- (if len v =? 0 then
             call_bool N (entry name_ 0 None 0)
           else
             let elems := len v in
             let components := len (v !!! 0%nat) in
             cmem <- malloc N (size_t_mul (C_size_t (int_mul elems components))
                                          (C_size_t elem_size)) ;;
             when (is_nil cmem) (return_ (Some (errors_New alloc_text))) ;;
             defer (free cmem) ;;
             fill cmem v ;;
             call_bool N (entry name_ (C_int components) cmem (C_int elems))) ;;
    when (negb ok)
      (return_ (Some (fmt_Errorf (fail_text +:+ dquote +:+ "%s" +:+ dquote) name))) ;;
    return_ None).
End Marshal.

(** ** Vocabulary of the statements *)

(** The events a run from [s] to [s'] added. *)
Definition new_events (s s' : State) : list Event :=
  drop (length (trace s)) (trace s').

(** The Allegro calls among some events, in order, each with its result
    and the C heap at the call. *)
Definition al_calls (evs : list Event) : list (Call * Resp * gmap positive Block) :=
  omap (λ e, match e with EvCall c r mem => Some (c, r, mem) | _ => None end) evs.

(** The stores among some events, in order. *)
Definition stores_of (evs : list Event) : list (positive * Z * cval) :=
  omap (λ e, match e with EvStore p idx v => Some (p, idx, v) | _ => None end) evs.

(** The allocations among some events, in order: the size asked for and
    the pointer returned. *)
Definition mallocs_of (evs : list Event) : list (Z * pointer) :=
  omap (λ e, match e with EvMalloc size p => Some (size, p) | _ => None end) evs.

(** How often block [p] is released, through [free] or [freeString]. *)
Definition is_release_of (p : positive) (e : Event) : bool :=
  match e with
  | EvFree (Some a) | EvFreeString (Some a) => Pos.eqb a p
  | _ => false
  end.

Definition releases_of (p : positive) (evs : list Event) : nat :=
  length (List.filter (is_release_of p) evs).

(** The events of [n] consecutive stores starting at cell [idx], and their
    effect on the heap and on the cells of one block. *)
Fixpoint store_events (p : positive) (idx : Z) (vs : list cval) : list Event :=
  match vs with
  | [] => []
  | v :: vs' => EvStore p idx v :: store_events p (idx + 1) vs'
  end.

Fixpoint poke_all (p : positive) (idx : Z) (vs : list cval) (h : gmap positive Block)
  : gmap positive Block :=
  match vs with
  | [] => h
  | v :: vs' => poke_all p (idx + 1) vs' (poke p idx v h)
  end.

Fixpoint poke_cells (size idx : Z) (vs : list cval) (cells : gmap Z cval) : gmap Z cval :=
  match vs with
  | [] => cells
  | v :: vs' =>
      poke_cells size (idx + 1) vs' (if in_block size idx then <[idx := v]> cells else cells)
  end.

(** Addresses from [next] on are not in use: the allocator's invariant. *)
Definition fresh (s : State) : Prop :=
  ∀ a : positive, (next s ≤ a)%positive → heap s !! a = None.

(** *** The two vector binders as one operation *)

Inductive Vector :=
| IntVector (i : list (list Z))
| FloatVector (f : list (list float32)).

Definition SetShaderVectorOf (N : Native) (name : string) (v : Vector) : Go (option error) :=
  match v with
  | IntVector i => SetShaderIntVector N name i
  | FloatVector f => SetShaderFloatVector N name f
  end.

(** The scalars of the input as the caller gave them, and as the
    conversions [C.int(elem)] and [C.float(elem)] hand them to C. *)
Definition rows_given (v : Vector) : list (list cval) :=
  match v with
  | IntVector i => (λ slice : list Z, CInt <$> slice) <$> i
  | FloatVector f => (λ slice : list float32, CFloat <$> slice) <$> f
  end.

Definition rows_sent (v : Vector) : list (list cval) :=
  match v with
  | IntVector i => (λ slice : list Z, (λ elem, CInt (C_int elem)) <$> slice) <$> i
  | FloatVector f => (λ slice : list float32, (λ elem, CFloat (C_float elem)) <$> slice) <$> f
  end.

(** [elems] and [components] of the source: N, and the length of row 0. *)
Definition elems (v : Vector) : Z := len (rows_given v).
Definition components (v : Vector) : Z := len (rows_given v !!! 0%nat).

Definition bind_entry (v : Vector) : pointer → Z → pointer → Z → Call :=
  match v with
  | IntVector _ => al_set_shader_int_vector
  | FloatVector _ => al_set_shader_float_vector
  end.

(** The argument of [malloc]. *)
Definition scratch_bytes (v : Vector) : Z :=
  size_t_mul (C_size_t (int_mul (elems v) (components v)))
             (C_size_t (match v with
                        | IntVector _ => Sizeof_C_int
                        | FloatVector _ => Sizeof_C_float
                        end)).

Definition alloc_failure (v : Vector) : error :=
  match v with
  | IntVector _ => errors_New "failed to allocate int vector"
  | FloatVector _ => errors_New "failed to allocate float vector"
  end.

Definition bind_failure (v : Vector) (name : string) : error :=
  match v with
  | IntVector _ =>
      fmt_Errorf ("failed to set int vector for " +:+ dquote +:+ "%s" +:+ dquote) name
  | FloatVector _ =>
      fmt_Errorf ("failed to set float vector for " +:+ dquote +:+ "%s" +:+ dquote) name
  end.

(** The scalars of the input fit the scratch buffer: the rows hold at
    most N * M scalars and the byte count 4 * N * M does not wrap, so no
    store of the loop falls outside of the block. *)
Definition fits_buffer (v : Vector) : Prop :=
  len (concat (rows_sent v)) ≤ elems v * components v ∧
  4 * (elems v * components v) < 2 ^ 64.

(** The C heap and the events at the moment [malloc] is called: the
    uniform name has just been copied. *)
Definition heap_named (name : string) (s : State) : gmap positive Block :=
  <[next s := CStr name]> (heap s).
Definition trace_named (name : string) (s : State) : list Event :=
  trace s ++ [EvCString name (next s)].

(** Whether the scratch allocation of this call succeeds. *)
Definition alloc_ok (N : Native) (name : string) (v : Vector) (s : State) : bool :=
  native_alloc N (trace_named name s) (heap_named name s) (scratch_bytes v).

(** *** Properties of a run from [s] to [s'] *)

(** The run makes exactly one Allegro call, the vector bind, with [M]
    components per element, [len rows] elements and a pointer to a block
    whose cell [row * M + col] holds [rows[row][col]]. *)
Definition marshalled (entry : pointer → Z → pointer → Z → Call)
    (rows : list (list cval)) (M : Z) (s s' : State) : Prop :=
  ∃ name_ buf r mem size cells,
    al_calls (new_events s s') = [(entry name_ M (Some buf) (len rows), r, mem)] ∧
    mem !! buf = Some (CMem size cells) ∧
    ∀ (row col : nat) (slice : list cval) (x : cval),
      rows !! row = Some slice → slice !! col = Some x →
      cells !! (Z.of_nat row * M + Z.of_nat col) = Some x.

(** The run does nothing but copy the name, make the bind call with zero
    components, a NULL buffer and zero elements, and free the name; its
    result is an error exactly when the call answered false. *)
Definition clears_array (v : Vector) (name : string) (s : State)
    (run : outcome (option error) * State) : Prop :=
  ∃ ok mem,
    new_events s run.2 =
      [EvCString name (next s);
       EvCall (bind_entry v (Some (next s)) 0 None 0) (RBool ok) mem;
       EvFreeString (Some (next s))] ∧
    run.1 = Done (if ok then None else Some (bind_failure v name)).

(** The run made one allocation, the scratch block [buf], and released
    this block exactly once, by [free]: after the allocation, after
    every store and every Allegro call of the run; no other release of
    the run, by [free] or by [freeString], is of [buf], and when the run
    ends the block is gone. *)
Definition released_once (s s' : State) : Prop :=
  ∃ size buf before after,
    mallocs_of (new_events s s') = [(size, Some buf)] ∧
    new_events s s' = before ++ EvFree (Some buf) :: after ∧
    EvMalloc size (Some buf) ∈ before ∧
    releases_of buf (new_events s s') = 1%nat ∧
    al_calls after = [] ∧ stores_of after = [] ∧
    heap s' !! buf = None.

(** The stores of the run are the scalars of [rows], row after row, at
    the cells 0, 1, 2, ... of the block [buf]: as many stores as there
    are scalars, the [k]-th one of the [k]-th scalar at cell [k]. *)
Definition writes_in_order (rows : list (list cval)) (buf : positive) (s s' : State) : Prop :=
  length (stores_of (new_events s s')) = length (concat rows) ∧
  ∀ (k : nat) (x : cval), concat rows !! k = Some x →
    stores_of (new_events s s') !! k = Some (buf, Z.of_nat k, x).

(** Every store among the events goes to the block [buf] and lies inside
    its [size] bytes. *)
Definition stores_within (buf : positive) (size : Z) (evs : list Event) : Prop :=
  Forall (λ st : positive * Z * cval, st.1.1 = buf ∧ in_block size st.1.2 = true)
         (stores_of evs).

(** Some Allegro call among the events answered false. *)
Definition native_failed (evs : list Event) : Prop :=
  ∃ c mem, (c, RBool false, mem) ∈ al_calls evs.

(** The run made exactly one Allegro call, and [ok] is what Allegro
    answered to it, on the events and the C heap of that moment. *)
Definition answered (N : Native) (ok : bool) (s s' : State) : Prop :=
  ∃ before c mem after,
    new_events s s' = before ++ EvCall c (RBool ok) mem :: after ∧
    al_calls before = [] ∧ al_calls after = [] ∧
    ok = native_bool N (trace s ++ before) mem c.

(** *** The operations of a shader object, on one footing *)

Inductive ShaderOp :=
| OpAttachSource (stype : ShaderType) (source : string)
| OpAttachSourceFile (stype : ShaderType) (filename : string)
| OpBuild
| OpLog
| OpPlatform
| OpDestroy.

Definition go_map {A B} (f : A → B) (g : Go A) : Go B :=
  λ s, match g s with
       | (Done a, s') => (Done (f a), s')
       | (Panicked msg, s') => (Panicked msg, s')
       end.

(** The error result of an operation; [Destroy] has no result at all,
    which counts as no error. *)
Definition run_shader_op (N : Native) (s : option handle) (op : ShaderOp) : Go (option error) :=
  match op with
  | OpAttachSource stype source => AttachSource N s stype source
  | OpAttachSourceFile stype filename => AttachSourceFile N s stype filename
  | OpBuild => Build N s
  | OpLog => go_map snd (Log N s)
  | OpPlatform => go_map snd (Platform N s)
  | OpDestroy => go_map (λ _, None) (Destroy s)
  end.

(** The operation fails with [ShaderIsNull] without reaching Allegro. *)
Definition fails_fast (N : Native) (op : ShaderOp) (s : State) : Prop :=
  (run_shader_op N None op s).1 = Done (Some ShaderIsNull) ∧
  al_calls (new_events s (run_shader_op N None op s).2) = [].

(** *** The operations whose errors carry a name *)

Inductive Named :=
| BindSampler (name : string) (bmp : option handle) (unit : Z)
| BindMatrix (name : string) (matrix : option handle)
| BindInt (name : string) (i : Z)
| BindFloat (name : string) (f : float32)
| BindBool (name : string) (b : bool)
| BindVector (name : string) (v : Vector)
| AttachFile (s : option handle) (stype : ShaderType) (filename : string).

Definition run_named (N : Native) (op : Named) : Go (option error) :=
  match op with
  | BindSampler name bmp unit => SetShaderSampler N name bmp unit
  | BindMatrix name matrix => SetShaderMatrix N name matrix
  | BindInt name i => SetShaderInt N name i
  | BindFloat name f => SetShaderFloat N name f
  | BindBool name b => SetShaderBool N name b
  | BindVector name v => SetShaderVectorOf N name v
  | AttachFile s stype filename => AttachSourceFile N s stype filename
  end.

(** The uniform name, or the file path. *)
Definition name_of (op : Named) : string :=
  match op with
  | BindSampler name _ _ | BindMatrix name _ | BindInt name _ | BindFloat name _
  | BindBool name _ | BindVector name _ => name
  | AttachFile _ _ filename => filename
  end.

(** The inputs with which the function gets as far as its Allegro
    call: a bitmap and a shader that are not nil; a vector that is empty,
    or whose scratch buffer is allocated, holds the scalars and is not
    longer than the array view. *)
Definition reaches_call (N : Native) (op : Named) (s : State) : Prop :=
  match op with
  | BindSampler _ bmp _ => bmp ≠ None
  | AttachFile sh _ _ => sh ≠ None
  | BindVector name v =>
      rows_given v = [] ∨
      (alloc_ok N name v s = true ∧ len (concat (rows_sent v)) ≤ garr_len ∧ fits_buffer v)
  | _ => True
  end.

(** *** Runs with a single call *)

(** The run of a function that copies one string, makes one
    bool-returning call and frees the string. *)
Definition one_call (N : Native) (str : string) (c : pointer → Call) (failure : error)
    (s : State) : outcome (option error) * State :=
  let call := c (Some (next s)) in
  let ok := native_bool N (trace_named str s) (heap_named str s) call in
  (Done (if ok then None else Some failure),
   mkState (delete (next s) (heap_named str s)) (Pos.succ (next s))
           (trace s ++ [EvCString str (next s); EvCall call (RBool ok) (heap_named str s);
                        EvFreeString (Some (next s))])
           (defers s)).


(** The values of an integer input that a C [int] can hold. *)
Definition fits_C_int (v : Vector) : Prop :=
  match v with
  | IntVector i => Forall (Forall (λ x, -2147483648 ≤ x ≤ 2147483647)) i
  | FloatVector _ => True
  end.

(** *** Concrete environments and inputs *)

Definition s0 : State := mkState ∅ 1%positive [] [].

(** Every call succeeds. *)
Definition native_ok : Native :=
  mkNative (λ _ _ _, true) (λ _ _ _, Some 1%positive) (λ _ _ _, EmptyString)
           (λ _ _ _, 0) (λ _ _ _, true).

(** Memory is available, every Allegro call answers false. *)
Definition native_rejects : Native :=
  mkNative (λ _ _ _, false) (λ _ _ _, None) (λ _ _ _, EmptyString)
           (λ _ _ _, 0) (λ _ _ _, true).

(** The allocator is out of memory. *)
Definition native_no_memory : Native :=
  mkNative (λ _ _ _, true) (λ _ _ _, Some 1%positive) (λ _ _ _, EmptyString)
           (λ _ _ _, 0) (λ _ _ _, false).

(** A row of 2^30 zeros, and that row followed by an empty one. *)
Definition long_row : list Z := replicate (Z.to_nat 1073741824) 0.
Definition long_rows : list (list Z) := [long_row; []].

(** *** Every function of the file as one operation *)

Inductive Operation :=
| Create (platform : ShaderPlatform)
| OnShader (s : option handle) (op : ShaderOp)
| Use (s : option handle)
| Bound (op : Named)
| DefaultSource (platform : ShaderPlatform) (typ : ShaderType).

(** A call whose result the caller drops. *)
Definition forget {A} (g : Go A) : Go unit := go_map (λ _, tt) g.

Definition run_operation (N : Native) (o : Operation) : Go unit :=
  match o with
  | Create platform => forget (CreateShader N platform)
  | OnShader s op => forget (run_shader_op N s op)
  | Use s => forget (UseShader N s)
  | Bound op => forget (run_named N op)
  | DefaultSource platform typ => forget (DefaultShaderSource N platform typ)
  end.

(** A caller that runs operations one after the other; a panic is not
    recovered and ends the sequence. *)
Fixpoint run_operations (N : Native) (os : list Operation) : Go unit :=
  match os with
  | [] => λ s, (Done tt, s)
  | o :: os' =>
      λ s, match run_operation N o s with
           | (Done _, s') => run_operations N os' s'
           | (Panicked msg, s') => (Panicked msg, s')
           end
  end.

(** The run gave back the C heap as it found it, took no address below
    the allocator's mark, kept the caller's deferred calls and only added
    events. *)
Definition quiet (s s' : State) : Prop :=
  heap s' = heap s ∧ (next s ≤ next s')%positive ∧ defers s' = defers s ∧
  ∃ evs, trace s' = trace s ++ evs.

(** An operation whose vector input, if it has one, fits its scratch
    buffer. *)
Definition within_buffer (o : Operation) : Prop :=
  match o with
  | Bound (BindVector _ v) => fits_buffer v
  | _ => True
  end.

(** The C strings among the arguments of a call. *)
Definition string_args (c : Call) : list pointer :=
  match c with
  | al_attach_shader_source _ _ p | al_attach_shader_source_file _ _ p
  | al_set_shader_sampler p _ _ | al_set_shader_matrix p _
  | al_set_shader_int p _ | al_set_shader_float p _
  | al_set_shader_int_vector p _ _ _ | al_set_shader_float_vector p _ _ _
  | al_set_shader_bool p _ => [p]
  | _ => []
  end.

(** The Go string an operation is given: a uniform name, a source text
    or a file name. *)
Definition text_of (o : Operation) : option string :=
  match o with
  | Bound op => Some (name_of op)
  | OnShader _ (OpAttachSource _ source) => Some source
  | OnShader _ (OpAttachSourceFile _ filename) => Some filename
  | _ => None
  end.

(** [mem] holds a C copy of [text] at each string argument of [c]. *)
Definition strings_live (c : Call) (mem : gmap positive Block) (text : option string) : Prop :=
  ∀ p, p ∈ string_args c → ∃ q str, p = Some q ∧ text = Some str ∧ mem !! q = Some (CStr str).



(** The shader a call is made on. *)
Definition shader_arg (c : Call) : option (option handle) :=
  match c with
  | al_attach_shader_source s _ _ | al_attach_shader_source_file s _ _
  | al_build_shader s | al_get_shader_log s | al_get_shader_platform s
  | al_use_shader s | al_destroy_shader s => Some s
  | _ => None
  end.

Inductive Kind :=
| SamplerKind | MatrixKind | IntKind | FloatKind | BoolKind
| IntVectorKind | FloatVectorKind | SourceFileKind.

Definition kind_of (op : Named) : Kind :=
  match op with
  | BindSampler _ _ _ => SamplerKind
  | BindMatrix _ _ => MatrixKind
  | BindInt _ _ => IntKind
  | BindFloat _ _ => FloatKind
  | BindBool _ _ => BoolKind
  | BindVector _ (IntVector _) => IntVectorKind
  | BindVector _ (FloatVector _) => FloatVectorKind
  | AttachFile _ _ _ => SourceFileKind
  end.

(** The format each function gives to [fmt.Errorf]. *)
Definition failure_format (k : Kind) : string :=
  match k with
  | SamplerKind => "failed to set shader sampler for " +:+ dquote +:+ "%s" +:+ dquote
  | MatrixKind => "failed to set shader matrix for " +:+ dquote +:+ "%s" +:+ dquote
  | IntKind => "failed to set shader int for " +:+ dquote +:+ "%s" +:+ dquote
  | FloatKind => "failed to set shader float for " +:+ dquote +:+ "%s" +:+ dquote
  | BoolKind => "failed to set shader bool for " +:+ dquote +:+ "%s" +:+ dquote
  | IntVectorKind => "failed to set int vector for " +:+ dquote +:+ "%s" +:+ dquote
  | FloatVectorKind => "failed to set float vector for " +:+ dquote +:+ "%s" +:+ dquote
  | SourceFileKind => "failed to attach shader source file " +:+ dquote +:+ "%s" +:+ dquote
  end.

(** * Proofs *)

(** ** Conversions that do not wrap *)

Lemma SetShaderIntVector_shape N name i :
  SetShaderIntVector N name i =
  SetShaderVector N (λ elem, CInt (C_int elem)) al_set_shader_int_vector Sizeof_C_int
    "failed to allocate int vector" "failed to set int vector for " name i.
Proof. reflexivity. Qed.

Lemma SetShaderFloatVector_shape N name f :
  SetShaderFloatVector N name f =
  SetShaderVector N (λ elem, CFloat (C_float elem)) al_set_shader_float_vector Sizeof_C_float
    "failed to allocate float vector" "failed to set float vector for " name f.
Proof. reflexivity. Qed.

Lemma C_int_small z : -2147483648 ≤ z < 2147483648 → C_int z = z.
Proof.
  intros Hz. unfold C_int, wrap.
  change (2 ^ 32) with 4294967296. change (2 ^ (32 - 1)) with 2147483648.
  destruct (Z.ltb_spec z 0) as [Hneg|Hpos].
  - replace (z mod 4294967296) with (z + 4294967296)
      by (apply (Z.mod_unique _ _ (-1)); lia).
    destruct (Z.ltb_spec (z + 4294967296) 2147483648); lia.
  - rewrite Z.mod_small by lia.
    destruct (Z.ltb_spec z 2147483648); lia.
Qed.

Lemma int_small z : -9223372036854775808 ≤ z < 9223372036854775808 → int z = z.
Proof.
  intros Hz. unfold int, wrap.
  change (2 ^ 64) with 18446744073709551616.
  change (2 ^ (64 - 1)) with 9223372036854775808.
  destruct (Z.ltb_spec z 0) as [Hneg|Hpos].
  - replace (z mod 18446744073709551616) with (z + 18446744073709551616)
      by (apply (Z.mod_unique _ _ (-1)); lia).
    destruct (Z.ltb_spec (z + 18446744073709551616) 9223372036854775808); lia.
  - rewrite Z.mod_small by lia.
    destruct (Z.ltb_spec z 9223372036854775808); lia.
Qed.

Lemma C_size_t_small z : 0 ≤ z < 18446744073709551616 → C_size_t z = z.
Proof.
  intros Hz. unfold C_size_t. change (2 ^ 64) with 18446744073709551616.
  apply Z.mod_small; lia.
Qed.

Lemma garr_len_val : garr_len = 1073741823.
Proof. reflexivity. Qed.

Lemma len_nonneg {A} (l : list A) : 0 ≤ len l.
Proof. unfold len. lia. Qed.

Lemma len_app {A} (l1 l2 : list A) : len (l1 ++ l2) = len l1 + len l2.
Proof. unfold len. rewrite length_app. lia. Qed.

Lemma len_cons {A} (x : A) (l : list A) : len (x :: l) = 1 + len l.
Proof. unfold len. simpl length. lia. Qed.

(** ** Loops *)

Lemma for_range_app {R A B} (l1 l2 : list A) (acc : B) (body : A → B → Stmt R B) s :
  for_range (l1 ++ l2) acc body s =
  bind (for_range l1 acc body) (λ acc', for_range l2 acc' body) s.
Proof.
  revert acc s. induction l1 as [|x l1 IH]; intros acc s.
  - reflexivity.
  - cbn [app for_range]. unfold bind in *.
    destruct (body x acc s) as [[a|r|msg] s1]; [|done..].
    apply IH.
Qed.

Lemma for_range_concat {R A B} (rows : list (list A)) (acc : B) (body : A → B → Stmt R B) s :
  for_range rows acc (λ slice idx, for_range slice idx body) s =
  for_range (concat rows) acc body s.
Proof.
  revert acc s. induction rows as [|row rows IH]; intros acc s.
  - reflexivity.
  - cbn [concat for_range]. rewrite for_range_app. unfold bind.
    destruct (for_range row acc body s) as [[a|r|msg] s1]; [|done..].
    apply IH.
Qed.

Section Fill.
Context {A : Type} (conv : A → cval) (p : positive).

Lemma fill_flat_ok (xs : list A) idx s :
  0 ≤ idx → idx + len xs ≤ garr_len →
  for_range xs idx (fill_step conv (Some p)) s =
  (Normal (idx + len xs),
   mkState (poke_all p idx (conv <$> xs) (heap s)) (next s)
           (trace s ++ store_events p idx (conv <$> xs)) (defers s)).
Proof.
  revert idx s. induction xs as [|x xs IH]; intros idx s Hidx Hlen.
  - destruct s. simpl. unfold pure, len. simpl.
    rewrite app_nil_r, Z.add_0_r. reflexivity.
  - rewrite len_cons in Hlen. pose proof (len_nonneg xs).
    cbn [for_range]. unfold bind at 1. unfold fill_step at 1.
    unfold bind at 1. unfold store.
    replace ((0 <=? idx) && (idx <? garr_len)) with true
      by (symmetry; apply andb_true_intro; split; [apply Z.leb_le|apply Z.ltb_lt]; lia).
    unfold pure. unfold int_add. rewrite int_small by (rewrite garr_len_val in Hlen; lia).
    rewrite IH by lia. cbn [heap next trace defers fmap list_fmap store_events poke_all].
    rewrite len_cons, <- app_assoc, Z.add_assoc. reflexivity.
Qed.

Lemma fill_flat_panic (xs : list A) idx s :
  0 ≤ idx → idx ≤ garr_len → garr_len < idx + len xs →
  ∃ pre post, xs = pre ++ post ∧ idx + len pre = garr_len ∧
    for_range xs idx (fill_step conv (Some p)) s =
    (Panicking (index_panic garr_len garr_len),
     mkState (poke_all p idx (conv <$> pre) (heap s)) (next s)
             (trace s ++ store_events p idx (conv <$> pre)) (defers s)).
Proof.
  revert idx s. induction xs as [|x xs IH]; intros idx s Hidx Hle Hlen.
  - unfold len in Hlen. simpl in Hlen. lia.
  - destruct (decide (idx = garr_len)) as [->|Hne].
    + exists [], (x :: xs). split; [done|]. split; [unfold len; simpl; lia|].
      cbn [for_range]. unfold bind at 1. unfold fill_step at 1.
      unfold bind at 1. unfold store.
      replace ((0 <=? garr_len) && (garr_len <? garr_len)) with false by reflexivity.
      destruct s. simpl. rewrite app_nil_r. reflexivity.
    + rewrite len_cons in Hlen.
      destruct (IH (idx + 1) (mkState (poke p idx (conv x) (heap s)) (next s)
                                      (trace s ++ [EvStore p idx (conv x)]) (defers s)))
        as (pre & post & -> & Hpre & Hrun); [lia..|].
      exists (x :: pre), post. split; [done|]. split; [rewrite len_cons; lia|].
      cbn [for_range]. unfold bind at 1. unfold fill_step at 1.
      unfold bind at 1. unfold store.
      replace ((0 <=? idx) && (idx <? garr_len)) with true
        by (symmetry; apply andb_true_intro; split; [apply Z.leb_le|apply Z.ltb_lt]; lia).
      unfold pure. unfold int_add. rewrite int_small by (rewrite garr_len_val in Hle; lia).
      rewrite Hrun. cbn [heap next trace defers fmap list_fmap store_events poke_all].
      rewrite <- app_assoc. reflexivity.
Qed.
End Fill.

Lemma len_eqb_nonempty {A} (l : list A) : l ≠ [] → (len l =? 0) = false.
Proof.
  intros Hl. apply Z.eqb_neq. destruct l as [|x l]; [done|].
  rewrite len_cons. pose proof (len_nonneg l). lia.
Qed.

Section FillRows.
Context {A : Type} (conv : A → cval) (p : positive).

Lemma fill_ok (rows : list (list A)) s :
  len (concat rows) ≤ garr_len →
  fill conv (Some p) rows s =
  (Normal (len (concat rows)),
   mkState (poke_all p 0 (conv <$> concat rows) (heap s)) (next s)
           (trace s ++ store_events p 0 (conv <$> concat rows)) (defers s)).
Proof.
  intros Hlen. unfold fill. rewrite for_range_concat.
  rewrite fill_flat_ok by lia. reflexivity.
Qed.

Lemma fill_panic (rows : list (list A)) s :
  garr_len < len (concat rows) →
  ∃ pre post, concat rows = pre ++ post ∧ len pre = garr_len ∧
    fill conv (Some p) rows s =
    (Panicking (index_panic garr_len garr_len),
     mkState (poke_all p 0 (conv <$> pre) (heap s)) (next s)
             (trace s ++ store_events p 0 (conv <$> pre)) (defers s)).
Proof.
  intros Hlen.
  destruct (fill_flat_panic conv p (concat rows) 0 s) as (pre & post & E & Hpre & Hrun);
    [lia | rewrite garr_len_val; lia | lia |].
  exists pre, post. split; [done|]. split; [lia|].
  unfold fill. rewrite for_range_concat. exact Hrun.
Qed.
End FillRows.

Section Master.
Context (N : Native) {A : Type}.
Context (conv : A → cval).
Context (entry : pointer → Z → pointer → Z → Call).
Context (elem_size : Z) (alloc_text fail_text : string).
Context (name : string) (v : list (list A)) (s : State).

Local Abbreviation run :=
  (SetShaderVector N conv entry elem_size alloc_text fail_text name v s).
Local Abbreviation q := (next s).
Local Abbreviation p := (Pos.succ (next s)).
Local Abbreviation h1 := (<[next s := CStr name]> (heap s)).
Local Abbreviation tr1 := (trace s ++ [EvCString name (next s)]).
Local Abbreviation size :=
  (size_t_mul (C_size_t (int_mul (len v) (len (v !!! 0%nat)))) (C_size_t elem_size)).
Local Abbreviation failure :=
  (Some (fmt_Errorf (fail_text +:+ dquote +:+ "%s" +:+ dquote) name)).


Lemma run_empty :
  v = [] →
  let call := entry (Some q) 0 None 0 in
  let ok := native_bool N tr1 h1 call in
  run = (Done (if ok then None else failure),
         mkState (delete q h1) (Pos.succ q)
                 (tr1 ++ [EvCall call (RBool ok) h1; EvFreeString (Some q)]) (defers s)).
Proof.
  intros Hv call ok. unfold SetShaderVector, func. rewrite Hv.
  change (len (@nil (list A)) =? 0) with true.
  cbn -[len]. unfold bind, call_bool. cbn -[len]. subst ok call.
  destruct (native_bool N _ _ _); cbn; rewrite <- app_assoc; reflexivity.
Qed.

Lemma run_alloc_fails :
  v ≠ [] → native_alloc N tr1 h1 size = false →
  run = (Done (Some (errors_New alloc_text)),
         mkState (delete q h1) (Pos.succ q)
                 (tr1 ++ [EvMalloc size None; EvFreeString (Some q)]) (defers s)).
Proof.
  intros Hv Hfail. unfold SetShaderVector, func.
  cbn -[len]. rewrite len_eqb_nonempty by done.
  unfold bind, malloc. cbn -[len]. rewrite Hfail.
  cbn -[len]. rewrite <- app_assoc. reflexivity.
Qed.

Lemma run_marshals :
  v ≠ [] → native_alloc N tr1 h1 size = true → len (concat v) ≤ garr_len →
  let vals := conv <$> concat v in
  let hcall := poke_all p 0 vals (<[p := CMem size ∅]> h1) in
  let call := entry (Some q) (C_int (len (v !!! 0%nat))) (Some p) (C_int (len v)) in
  let ok := native_bool N (tr1 ++ EvMalloc size (Some p) :: store_events p 0 vals) hcall call in
  run = (Done (if ok then None else failure),
         mkState (delete q (delete p hcall)) (Pos.succ p)
                 (tr1 ++ EvMalloc size (Some p) :: store_events p 0 vals ++
                    [EvCall call (RBool ok) hcall; EvFree (Some p); EvFreeString (Some q)])
                 (defers s)).
Proof.
  intros Hv Halloc Hlen vals hcall call ok. subst ok call hcall vals.
  unfold SetShaderVector, func.
  cbn -[len fill]. rewrite len_eqb_nonempty by done.
  unfold bind, malloc. cbn -[len fill]. rewrite Halloc.
  cbn -[len fill]. rewrite fill_ok by done. unfold call_bool.
  cbn -[len fill].
  rewrite <- !app_assoc. cbn [app].
  destruct (native_bool N _ _ _); cbn; rewrite <- !app_assoc; reflexivity.
Qed.

Lemma run_panics :
  v ≠ [] → native_alloc N tr1 h1 size = true → garr_len < len (concat v) →
  ∃ pre post, concat v = pre ++ post ∧ len pre = garr_len ∧
    let vals := conv <$> pre in
    run = (Panicked (index_panic garr_len garr_len),
           mkState (delete q (delete p (poke_all p 0 vals (<[p := CMem size ∅]> h1))))
                   (Pos.succ p)
                   (tr1 ++ EvMalloc size (Some p) :: store_events p 0 vals ++
                      [EvFree (Some p); EvFreeString (Some q)])
                   (defers s)).
Proof.
  intros Hv Halloc Hlen.
  destruct (fill_panic conv p v
              (mkState (<[p := CMem size ∅]> h1) (Pos.succ p)
                       (tr1 ++ [EvMalloc size (Some p)])
                       [free (Some p); freeString (Some q)]))
    as (pre & post & E & Hpre & Hrun); [done|].
  exists pre, post. split; [done|]. split; [done|]. intros vals.
  unfold SetShaderVector, func.
  cbn -[len fill]. rewrite len_eqb_nonempty by done.
  unfold bind, malloc. cbn -[len fill]. rewrite Halloc.
  cbn -[len fill]. rewrite Hrun.
  cbn -[len fill]. rewrite <- !app_assoc. reflexivity.
Qed.
End Master.

(** ** The heap after the stores *)

(** The scratch block keeps its size and receives the stores that fall
    inside of it, whatever the other stores do. *)
Lemma poke_all_lookup p size idx vs cells (h : gmap positive Block) :
  h !! p = Some (CMem size cells) →
  poke_all p idx vs h !! p = Some (CMem size (poke_cells size idx vs cells)).
Proof.
  revert idx cells h. induction vs as [|v vs IH]; intros idx cells h Hp; [done|].
  cbn [poke_all poke_cells]. unfold poke. rewrite Hp.
  destruct (in_block size idx); apply IH, lookup_insert_eq.
Qed.

(** When all the stores fall inside the block, nothing else changes. *)
Lemma poke_all_block p size idx vs cells (h : gmap positive Block) :
  0 ≤ idx → 4 * (idx + len vs) ≤ size →
  h !! p = Some (CMem size cells) →
  poke_all p idx vs h = <[p := CMem size (poke_cells size idx vs cells)]> h.
Proof.
  revert idx cells h. induction vs as [|v vs IH]; intros idx cells h Hidx Hsize Hp.
  - cbn. by rewrite insert_id.
  - cbn [poke_all poke_cells]. unfold poke. rewrite Hp.
    rewrite len_cons in Hsize. pose proof (len_nonneg vs).
    assert (Hin : in_block size idx = true).
    { unfold in_block. apply andb_true_iff. rewrite !Z.leb_le. lia. }
    rewrite Hin.
    rewrite (IH _ (<[idx:=v]> cells)) by (first [lia | apply lookup_insert_eq]).
    by rewrite insert_insert_eq.
Qed.

Lemma poke_cells_below size idx vs cells (k : Z) :
  k < idx → poke_cells size idx vs cells !! k = cells !! k.
Proof.
  revert idx cells. induction vs as [|v vs IH]; intros idx cells Hk; [done|].
  cbn [poke_cells]. rewrite IH by lia.
  destruct (in_block size idx); [|done]. apply lookup_insert_ne. lia.
Qed.

Lemma poke_cells_lookup size idx vs cells (k : nat) v :
  vs !! k = Some v → in_block size (idx + Z.of_nat k) = true →
  poke_cells size idx vs cells !! (idx + Z.of_nat k) = Some v.
Proof.
  revert idx cells k. induction vs as [|w vs IH]; intros idx cells k Hk Hin; [done|].
  cbn [poke_cells]. destruct k as [|k].
  - injection Hk as ->. rewrite Z.add_0_r in *. rewrite poke_cells_below by lia.
    rewrite Hin. apply lookup_insert_eq.
  - replace (idx + Z.of_nat (S k)) with ((idx + 1) + Z.of_nat k) in * by lia.
    by apply IH.
Qed.

Lemma concat_lookup_rect {A} (m : nat) (rows : list (list A)) (r c : nat) slice x :
  Forall (λ row, length row = m) rows →
  rows !! r = Some slice → slice !! c = Some x →
  concat rows !! (r * m + c)%nat = Some x.
Proof.
  intros Hrect. revert r. induction Hrect as [|row rows Hrow _ IH]; intros r Hr Hc; [done|].
  cbn [concat]. destruct r as [|r].
  - injection Hr as ->. rewrite lookup_app_l by eauto using lookup_lt_Some. done.
  - rewrite lookup_app_r by (rewrite Hrow; lia).
    replace (S r * m + c - length row)%nat with (r * m + c)%nat by (rewrite Hrow; lia).
    by apply IH.
Qed.

Lemma concat_length_rect {A} (m : nat) (rows : list (list A)) :
  Forall (λ row, length row = m) rows → length (concat rows) = (length rows * m)%nat.
Proof.
  induction 1 as [|row rows Hrow _ IH]; [done|].
  cbn [concat]. rewrite length_app, IH, Hrow. simpl. lia.
Qed.

(** ** Reading event lists *)

Lemma new_events_app s s' evs : trace s' = trace s ++ evs → new_events s s' = evs.
Proof. intros E. unfold new_events. rewrite E. apply drop_app_length. Qed.

Lemma al_calls_app evs1 evs2 : al_calls (evs1 ++ evs2) = al_calls evs1 ++ al_calls evs2.
Proof. apply omap_app. Qed.

Lemma stores_of_app evs1 evs2 : stores_of (evs1 ++ evs2) = stores_of evs1 ++ stores_of evs2.
Proof. apply omap_app. Qed.

Lemma mallocs_of_app evs1 evs2 : mallocs_of (evs1 ++ evs2) = mallocs_of evs1 ++ mallocs_of evs2.
Proof. apply omap_app. Qed.

Lemma releases_of_app p evs1 evs2 :
  releases_of p (evs1 ++ evs2) = (releases_of p evs1 + releases_of p evs2)%nat.
Proof. unfold releases_of. by rewrite List.filter_app, length_app. Qed.

Lemma al_calls_store_events p idx vs : al_calls (store_events p idx vs) = [].
Proof. revert idx. induction vs as [|v vs IH]; intros idx; [done|]. apply IH. Qed.

Lemma releases_of_store_events a p idx vs : releases_of a (store_events p idx vs) = 0%nat.
Proof. revert idx. induction vs as [|v vs IH]; intros idx; [done|]. apply IH. Qed.

Lemma mallocs_of_store_events p idx vs : mallocs_of (store_events p idx vs) = [].
Proof. revert idx. induction vs as [|v vs IH]; intros idx; [done|]. apply IH. Qed.

Lemma stores_of_store_events p idx vs (k : nat) v :
  vs !! k = Some v → stores_of (store_events p idx vs) !! k = Some (p, idx + Z.of_nat k, v).
Proof.
  revert idx k. induction vs as [|w vs IH]; intros idx k Hk; [done|].
  destruct k as [|k].
  - injection Hk as ->. cbn. by rewrite Z.add_0_r.
  - cbn [store_events]. change (stores_of (?e :: ?l)) with (stores_of [e] ++ stores_of l).
    cbn [stores_of omap list_omap app lookup list_lookup].
    replace (idx + Z.of_nat (S k)) with (idx + 1 + Z.of_nat k) by lia.
    apply IH, Hk.
Qed.

Lemma stores_of_store_events_length p idx vs :
  length (stores_of (store_events p idx vs)) = length vs.
Proof. revert idx. induction vs as [|v vs IH]; intros idx; [done|]. cbn. by rewrite <- (IH (idx + 1)). Qed.

Lemma len_fmap {A B} (f : A → B) (l : list A) : len (f <$> l) = len l.
Proof. unfold len. by rewrite length_fmap. Qed.

Lemma first_row_fmap {A B} (f : A → B) (rows : list (list A)) :
  ((λ row : list A, f <$> row) <$> rows) !!! 0%nat = f <$> (rows !!! 0%nat).
Proof. by destruct rows. Qed.

Lemma concat_fmap {A B} (f : A → B) (rows : list (list A)) :
  f <$> concat rows = concat ((λ row : list A, f <$> row) <$> rows).
Proof.
  induction rows as [|row rows IH]; [done|].
  cbn [concat fmap list_fmap]. rewrite fmap_app. by f_equal.
Qed.

Lemma fmap_eq_nil {A B} (f : A → B) (l : list A) : f <$> l = [] ↔ l = [].
Proof. by destruct l. Qed.

Lemma IntVector_facts i :
  elems (IntVector i) = len i ∧
  components (IntVector i) = len (i !!! 0%nat) ∧
  concat (rows_sent (IntVector i)) = (λ elem, CInt (C_int elem)) <$> concat i ∧
  (rows_given (IntVector i) = [] ↔ i = []).
Proof.
  unfold elems, components, rows_given, rows_sent.
  rewrite first_row_fmap, !len_fmap, <- concat_fmap, fmap_eq_nil. done.
Qed.

Lemma FloatVector_facts f :
  elems (FloatVector f) = len f ∧
  components (FloatVector f) = len (f !!! 0%nat) ∧
  concat (rows_sent (FloatVector f)) = (λ elem, CFloat (C_float elem)) <$> concat f ∧
  (rows_given (FloatVector f) = [] ↔ f = []).
Proof.
  unfold elems, components, rows_given, rows_sent.
  rewrite first_row_fmap, !len_fmap, <- concat_fmap, fmap_eq_nil. done.
Qed.

(** Reduce a statement about [SetShaderVectorOf] to the common shape. *)
Ltac to_shape v :=
  let i := fresh "i" in
  let f := fresh "f" in
  let He := fresh "Helems" in
  let Hc := fresh "Hcomps" in
  let Hs := fresh "Hsent" in
  let Hn := fresh "Hnil" in
  destruct v as [i|f];
  [ destruct (IntVector_facts i) as (He & Hc & Hs & Hn)
  | destruct (FloatVector_facts f) as (He & Hc & Hs & Hn) ];
  unfold alloc_ok, scratch_bytes in *; rewrite ?He, ?Hc, ?Hs, ?Hn in *;
  cbn [SetShaderVectorOf bind_entry bind_failure alloc_failure];
  [ rewrite SetShaderIntVector_shape | rewrite SetShaderFloatVector_shape ].

Section VectorRuns.
Context (N : Native) (name : string) (v : Vector) (s : State).

Lemma vector_run_empty :
  rows_given v = [] →
  let q := next s in
  let call := bind_entry v (Some q) 0 None 0 in
  let ok := native_bool N (trace_named name s) (heap_named name s) call in
  SetShaderVectorOf N name v s =
  (Done (if ok then None else Some (bind_failure v name)),
   mkState (delete q (heap_named name s)) (Pos.succ q)
           (trace s ++ [EvCString name q; EvCall call (RBool ok) (heap_named name s);
                        EvFreeString (Some q)])
           (defers s)).
Proof.
  intros Hv. to_shape v; (rewrite run_empty by done);
    unfold trace_named, heap_named; cbn zeta; by rewrite <- app_assoc.
Qed.

Lemma vector_run_alloc_fails :
  rows_given v ≠ [] → alloc_ok N name v s = false →
  let q := next s in
  SetShaderVectorOf N name v s =
  (Done (Some (alloc_failure v)),
   mkState (delete q (heap_named name s)) (Pos.succ q)
           (trace s ++ [EvCString name q; EvMalloc (scratch_bytes v) None;
                        EvFreeString (Some q)])
           (defers s)).
Proof.
  intros Hv Hfail. to_shape v; (rewrite run_alloc_fails by done);
    unfold trace_named, heap_named; cbn zeta; by rewrite <- app_assoc.
Qed.

Lemma vector_run_marshals :
  rows_given v ≠ [] → alloc_ok N name v s = true →
  len (concat (rows_sent v)) ≤ garr_len →
  let q := next s in
  let p := Pos.succ (next s) in
  let vals := concat (rows_sent v) in
  let hcall := poke_all p 0 vals (<[p := CMem (scratch_bytes v) ∅]> (heap_named name s)) in
  let call := bind_entry v (Some q) (C_int (components v)) (Some p) (C_int (elems v)) in
  let ok := native_bool N (trace_named name s ++
                             EvMalloc (scratch_bytes v) (Some p) :: store_events p 0 vals)
                        hcall call in
  SetShaderVectorOf N name v s =
  (Done (if ok then None else Some (bind_failure v name)),
   mkState (delete q (delete p hcall)) (Pos.succ p)
           (trace s ++ EvCString name q :: EvMalloc (scratch_bytes v) (Some p) ::
              store_events p 0 vals ++
              [EvCall call (RBool ok) hcall; EvFree (Some p); EvFreeString (Some q)])
           (defers s)).
Proof.
  intros Hv Halloc Hlen. to_shape v; rewrite len_fmap in Hlen;
    (rewrite run_marshals by done);
    unfold trace_named, heap_named; cbn zeta; by rewrite <- !app_assoc.
Qed.

Lemma vector_run_panics :
  rows_given v ≠ [] → alloc_ok N name v s = true →
  garr_len < len (concat (rows_sent v)) →
  ∃ pre post, concat (rows_sent v) = pre ++ post ∧ len pre = garr_len ∧
    let q := next s in
    let p := Pos.succ (next s) in
    SetShaderVectorOf N name v s =
    (Panicked (index_panic garr_len garr_len),
     mkState (delete q (delete p (poke_all p 0 pre
                (<[p := CMem (scratch_bytes v) ∅]> (heap_named name s)))))
             (Pos.succ p)
             (trace s ++ EvCString name q :: EvMalloc (scratch_bytes v) (Some p) ::
                store_events p 0 pre ++ [EvFree (Some p); EvFreeString (Some q)])
             (defers s)).
Proof.
  intros Hv Halloc Hlen. to_shape v.
  all: rewrite len_fmap in Hlen.
  all: match goal with
       | |- context [SetShaderVector N ?conv ?entry ?sz ?at_ ?ft name ?rows s] =>
           destruct (run_panics N conv entry sz at_ ft name rows s)
             as (pre & post & E & Hpre & Hrun); [done..|]
       end.
  all: rewrite E, fmap_app.
  all: eexists _, _; split; [reflexivity|]; split; [by rewrite len_fmap|].
  all: cbn zeta in *; rewrite Hrun; unfold trace_named, heap_named;
    by rewrite <- !app_assoc.
Qed.
End VectorRuns.

(** ** Scalar operations *)

Lemma state_eta s : mkState (heap s) (next s) (trace s) (defers s) = s.
Proof. by destruct s. Qed.

Lemma new_events_refl s : new_events s s = [].
Proof. unfold new_events. apply drop_all. Qed.

Ltac run_one_call :=
  unfold one_call, func, trace_named, heap_named; cbn; unfold bind, call_bool; cbn;
  destruct (native_bool _ _ _ _); cbn; rewrite <- ?app_assoc; reflexivity.

Lemma SetShaderInt_run N name i s :
  SetShaderInt N name i s =
  one_call N name (λ name_, al_set_shader_int name_ (C_int i))
    (fmt_Errorf ("failed to set shader int for " +:+ dquote +:+ "%s" +:+ dquote) name) s.
Proof. unfold SetShaderInt. run_one_call. Qed.

Lemma SetShaderFloat_run N name f s :
  SetShaderFloat N name f s =
  one_call N name (λ name_, al_set_shader_float name_ (C_float f))
    (fmt_Errorf ("failed to set shader float for " +:+ dquote +:+ "%s" +:+ dquote) name) s.
Proof. unfold SetShaderFloat. run_one_call. Qed.

Lemma SetShaderBool_run N name b s :
  SetShaderBool N name b s =
  one_call N name (λ name_, al_set_shader_bool name_ b)
    (fmt_Errorf ("failed to set shader bool for " +:+ dquote +:+ "%s" +:+ dquote) name) s.
Proof. unfold SetShaderBool. run_one_call. Qed.

Lemma SetShaderMatrix_run N name matrix s :
  SetShaderMatrix N name matrix s =
  one_call N name (λ name_, al_set_shader_matrix name_ matrix)
    (fmt_Errorf ("failed to set shader matrix for " +:+ dquote +:+ "%s" +:+ dquote) name) s.
Proof. unfold SetShaderMatrix. run_one_call. Qed.

Lemma SetShaderSampler_run N name bmp unit s :
  SetShaderSampler N name (Some bmp) unit s =
  one_call N name (λ name_, al_set_shader_sampler name_ (Some bmp) (C_int unit))
    (fmt_Errorf ("failed to set shader sampler for " +:+ dquote +:+ "%s" +:+ dquote) name) s.
Proof. unfold SetShaderSampler. run_one_call. Qed.

Lemma SetShaderSampler_nil N name unit s :
  SetShaderSampler N name None unit s = (Done (Some BitmapIsNull), s).
Proof. destruct s. reflexivity. Qed.

Lemma AttachSourceFile_run N sh stype filename s :
  AttachSourceFile N (Some sh) stype filename s =
  one_call N filename (λ filename_, al_attach_shader_source_file (Some sh) (C_enum stype) filename_)
    (fmt_Errorf ("failed to attach shader source file " +:+ dquote +:+ "%s" +:+ dquote)
                filename) s.
Proof. unfold AttachSourceFile. run_one_call. Qed.

Lemma AttachSource_run N sh stype source s :
  AttachSource N (Some sh) stype source s =
  one_call N source (λ source_, al_attach_shader_source (Some sh) (C_enum stype) source_)
    (errors_New "failed to attach shader source") s.
Proof. unfold AttachSource. run_one_call. Qed.

Lemma one_call_events N str c failure s :
  ∃ ok mem,
    new_events s (one_call N str c failure s).2 =
      [EvCString str (next s); EvCall (c (Some (next s))) (RBool ok) mem;
       EvFreeString (Some (next s))] ∧
    (one_call N str c failure s).1 = Done (if ok then None else Some failure).
Proof.
  eexists _, _. split; [|reflexivity]. by apply new_events_app.
Qed.

(** Messages built by [fmt.Errorf] from a text, a quoted [%s] and
    nothing else. *)
Ltac carries_name :=
  lazymatch goal with
  | |- Contains (Sprintf (?pre +:+ dquote +:+ _ +:+ dquote) ?name) ?name =>
      exists (pre +:+ dquote), dquote; reflexivity
  end.

Lemma one_call_failure N str c pre s :
  native_failed (new_events s (one_call N str c
      (fmt_Errorf (pre +:+ dquote +:+ "%s" +:+ dquote) str) s).2) →
  (one_call N str c (fmt_Errorf (pre +:+ dquote +:+ "%s" +:+ dquote) str) s).1 =
    Done (Some (errorString (Sprintf (pre +:+ dquote +:+ "%s" +:+ dquote) str))).
Proof.
  intros (c' & mem & Hin). revert Hin.
  destruct (one_call_events N str c (fmt_Errorf (pre +:+ dquote +:+ "%s" +:+ dquote) str) s)
    as (ok & mem' & -> & ->).
  cbn. rewrite list_elem_of_singleton. intros [= _ <- _]. reflexivity.
Qed.

Lemma native_failed_nil : ¬ native_failed [].
Proof. intros (c & mem & Hin). cbn in Hin. by apply not_elem_of_nil in Hin. Qed.

Lemma bind_failure_carries v name :
  ∃ msg, bind_failure v name = errorString msg ∧ Contains msg name.
Proof.
  destruct v; unfold bind_failure, fmt_Errorf; (eexists; split; [reflexivity|carries_name]).
Qed.

Lemma al_calls_marshal name q size p vals c r mem :
  al_calls (EvCString name q :: EvMalloc size (Some p) :: store_events p 0 vals ++
              [EvCall c r mem; EvFree (Some p); EvFreeString (Some q)]) = [(c, r, mem)].
Proof.
  change (al_calls (?a :: ?b :: ?l)) with (al_calls l).
  by rewrite al_calls_app, al_calls_store_events.
Qed.

Lemma al_calls_panic name q size p vals :
  al_calls (EvCString name q :: EvMalloc size (Some p) :: store_events p 0 vals ++
              [EvFree (Some p); EvFreeString (Some q)]) = [].
Proof.
  change (al_calls (?a :: ?b :: ?l)) with (al_calls l).
  by rewrite al_calls_app, al_calls_store_events.
Qed.

(** Every run of a vector binder either makes no Allegro call, and then
    ends with the allocation error or the panic, or makes exactly one,
    and then ends according to its answer. *)
Lemma vector_run_summary N name v s :
  (al_calls (new_events s (SetShaderVectorOf N name v s).2) = [] ∧
   ((SetShaderVectorOf N name v s).1 = Done (Some (alloc_failure v)) ∨
    (SetShaderVectorOf N name v s).1 = Panicked (index_panic garr_len garr_len))) ∨
  (∃ c ok mem,
     al_calls (new_events s (SetShaderVectorOf N name v s).2) = [(c, RBool ok, mem)] ∧
     (SetShaderVectorOf N name v s).1 = Done (if ok then None else Some (bind_failure v name))).
Proof.
  destruct (decide (rows_given v = [])) as [Hnil|Hrows].
  { right. rewrite vector_run_empty by done. eexists _, _, _. split; [|reflexivity].
    erewrite new_events_app by reflexivity. reflexivity. }
  destruct (alloc_ok N name v s) eqn:Halloc.
  2:{ left. rewrite vector_run_alloc_fails by done. split; [|by left].
      erewrite new_events_app by reflexivity. reflexivity. }
  destruct (Z_le_gt_dec (len (concat (rows_sent v))) garr_len) as [Hfit|Hlong].
  - right. rewrite vector_run_marshals by done. eexists _, _, _. split; [|reflexivity].
    erewrite new_events_app by reflexivity. apply al_calls_marshal.
  - left. destruct (vector_run_panics N name v s) as (pre & post & _ & _ & ->); [done|done|lia|].
    split; [|by right]. erewrite new_events_app by reflexivity. apply al_calls_panic.
Qed.

Lemma one_call_answered N str c failure s :
  ∃ ok, answered N ok s (one_call N str c failure s).2 ∧
        (one_call N str c failure s).1 = Done (if ok then None else Some failure).
Proof.
  eexists. split; [|reflexivity].
  exists [EvCString str (next s)], (c (Some (next s))), (heap_named str s),
         [EvFreeString (Some (next s))].
  split; [by apply new_events_app|]. done.
Qed.

Lemma vector_answered N name v s :
  rows_given v = [] ∨ (alloc_ok N name v s = true ∧ len (concat (rows_sent v)) ≤ garr_len) →
  ∃ ok, answered N ok s (SetShaderVectorOf N name v s).2 ∧
        (SetShaderVectorOf N name v s).1 = Done (if ok then None else Some (bind_failure v name)).
Proof.
  intros Hreach. destruct (decide (rows_given v = [])) as [Hnil|Hrows].
  { rewrite vector_run_empty by done. eexists. split; [|reflexivity].
    eexists [EvCString name (next s)], _, _, [EvFreeString (Some (next s))].
    split; [by apply new_events_app|]. done. }
  destruct Hreach as [?|[Halloc Hlen]]; [done|].
  rewrite vector_run_marshals by done. eexists. split; [|reflexivity].
  eexists (EvCString name (next s) :: EvMalloc (scratch_bytes v) (Some (Pos.succ (next s))) ::
             store_events (Pos.succ (next s)) 0 (concat (rows_sent v))), _, _,
          [EvFree (Some (Pos.succ (next s))); EvFreeString (Some (next s))].
  split; [apply new_events_app; reflexivity|].
  split; [change (al_calls (?a :: ?b :: ?l)) with (al_calls l); apply al_calls_store_events|].
  split; [done|]. unfold trace_named. by rewrite <- app_assoc.
Qed.

(** C8: for every uniform binder (sampler, matrix, int, float, bool, int
    vector, float vector) and for [AttachSourceFile]: whenever an Allegro
    call of the run answered false, the function returns an error whose
    message contains the uniform name, resp. the file path; and on every
    input with which the function gets as far as its Allegro call, it
    makes that call exactly once and returns, according to what Allegro
    answers to it, nil or an error whose message contains the uniform
    name, resp. the file path. *)
Theorem native_failure_names_the_cause N op s :
  (native_failed (new_events s (run_named N op s).2) →
   ∃ msg, (run_named N op s).1 = Done (Some (errorString msg)) ∧
          Contains msg (name_of op)) ∧
  (reaches_call N op s →
   ∃ ok msg,
     answered N ok s (run_named N op s).2 ∧
     Contains msg (name_of op) ∧
     (run_named N op s).1 = Done (if ok then None else Some (errorString msg))).
Proof.
  split.
  - destruct op as [name [bmp|] unit|name matrix|name i|name f|name b|name v|[sh|] stype filename];
      cbn [run_named name_of].
    + rewrite SetShaderSampler_run. intros H. eexists. split; [by apply one_call_failure|carries_name].
    + rewrite SetShaderSampler_nil. cbn. rewrite new_events_refl. by intros ?%native_failed_nil.
    + rewrite SetShaderMatrix_run. intros H. eexists. split; [by apply one_call_failure|carries_name].
    + rewrite SetShaderInt_run. intros H. eexists. split; [by apply one_call_failure|carries_name].
    + rewrite SetShaderFloat_run. intros H. eexists. split; [by apply one_call_failure|carries_name].
    + rewrite SetShaderBool_run. intros H. eexists. split; [by apply one_call_failure|carries_name].
    + unfold native_failed.
      destruct (vector_run_summary N name v s) as [[-> _]|(c & ok & mem & -> & ->)].
      * by intros ?%native_failed_nil.
      * intros (c' & mem' & [= _ <- _]%list_elem_of_singleton).
        destruct (bind_failure_carries v name) as (msg & -> & Hmsg). by exists msg.
    + rewrite AttachSourceFile_run. intros H. eexists. split; [by apply one_call_failure|carries_name].
    + replace (AttachSourceFile N None stype filename s) with (Done (Some ShaderIsNull), s)
        by (by destruct s).
      cbn. rewrite new_events_refl. by intros ?%native_failed_nil.
  - destruct op as [name [bmp|] unit|name matrix|name i|name f|name b|name v|[sh|] stype filename];
      cbn [run_named name_of reaches_call]; intros Hreach; try done;
      rewrite ?SetShaderSampler_run, ?SetShaderMatrix_run, ?SetShaderInt_run,
        ?SetShaderFloat_run, ?SetShaderBool_run, ?AttachSourceFile_run;
      try (match goal with
           | |- context [one_call ?N' ?str ?c ?failure ?s'] =>
               destruct (one_call_answered N' str c failure s') as (ok & Hans & ->)
           end;
           exists ok; eexists; split; [exact Hans|]; (split; [|reflexivity]); carries_name).
    destruct (vector_answered N name v s) as (ok & Hans & ->); [tauto|].
    destruct (bind_failure_carries v name) as (msg & -> & Hmsg).
    by exists ok, msg.
Qed.

Lemma native_failure_names_the_cause_witness :
  reaches_call native_rejects (BindVector "tint" (IntVector [[1; 2]; [3; 4]])) s0 ∧
  ∃ msg,
    answered native_rejects false s0
      (run_named native_rejects (BindVector "tint" (IntVector [[1; 2]; [3; 4]])) s0).2 ∧
    Contains msg "tint" ∧
    (run_named native_rejects (BindVector "tint" (IntVector [[1; 2]; [3; 4]])) s0).1 =
      Done (Some (errorString msg)).
Proof.
  assert (H : reaches_call native_rejects (BindVector "tint" (IntVector [[1; 2]; [3; 4]])) s0).
  { right. split; [reflexivity|]. split; [vm_compute; discriminate|].
    split; [vm_compute; discriminate|reflexivity]. }
  split; [exact H|].
  destruct (proj2 (native_failure_names_the_cause native_rejects
                     (BindVector "tint" (IntVector [[1; 2]; [3; 4]])) s0) H)
    as (ok & msg & Hans & Hmsg & Hres).
  assert (Hok : ok = false).
  { destruct Hans as (before & c & mem & after & _ & _ & _ & ->). reflexivity. }
  rewrite Hok in Hans, Hres. by exists msg.
Defined.

(** C10: the exported shader variable names are exactly "al_pos",
    "al_color", "al_projview_matrix", "al_tex", "al_texcoord",
    "al_tex_matrix", "al_use_tex", "al_use_tex_matrix" and the prefix
    "al_user_attr_": nine constants, nine distinct identifiers. *)
Theorem reserved_names :
  SHADER_VAR_POS = "al_pos" ∧
  SHADER_VAR_COLOR = "al_color" ∧
  SHADER_VAR_PROJVIEW_MATRIX = "al_projview_matrix" ∧
  SHADER_VAR_TEX = "al_tex" ∧
  SHADER_VAR_TEXCOORD = "al_texcoord" ∧
  SHADER_VAR_TEX_MATRIX = "al_tex_matrix" ∧
  SHADER_VAR_USE_TEX = "al_use_tex" ∧
  SHADER_VAR_USE_TEX_MATRIX = "al_use_tex_matrix" ∧
  SHADER_VAR_USER_ATTR = "al_user_attr_" ∧
  shader_vars.*2 ≡ₚ
    ["al_pos"; "al_color"; "al_projview_matrix"; "al_tex"; "al_texcoord";
     "al_tex_matrix"; "al_use_tex"; "al_use_tex_matrix"; "al_user_attr_"] ∧
  NoDup (shader_vars.*1).
Proof.
  repeat split; try reflexivity.
  - cbn. symmetry.
    rewrite (Permutation_swap "al_pos" "al_color"). do 6 f_equiv.
    change ["al_use_tex"; "al_use_tex_matrix"; "al_user_attr_"]
      with (["al_use_tex"; "al_use_tex_matrix"] ++ ["al_user_attr_"]).
    rewrite Permutation_app_comm. reflexivity.
  - apply (bool_decide_unpack _). by vm_compute.
Qed.

(** C9: [UseShader] makes the Allegro call for every argument, nil
    included, and returns the "failed to use shader" error exactly when
    the call answers false; for nil it never returns [ShaderIsNull]. *)
Theorem UseShader_accepts_nil N sh s :
  let ok := native_bool N (trace s) (heap s) (al_use_shader sh) in
  UseShader N sh s =
    (Done (if ok then None else Some (errors_New "failed to use shader")),
     emit (EvCall (al_use_shader sh) (RBool ok) (heap s)) s) ∧
  ((UseShader N sh s).1 = Done (Some (errors_New "failed to use shader")) ↔ ok = false) ∧
  al_calls (new_events s (UseShader N None s).2) =
    [(al_use_shader None, RBool (native_bool N (trace s) (heap s) (al_use_shader None)), heap s)] ∧
  (UseShader N None s).1 ≠ Done (Some ShaderIsNull).
Proof.
  assert (Hrun : ∀ sh', UseShader N sh' s =
    (Done (if native_bool N (trace s) (heap s) (al_use_shader sh')
           then None else Some (errors_New "failed to use shader")),
     emit (EvCall (al_use_shader sh')
             (RBool (native_bool N (trace s) (heap s) (al_use_shader sh'))) (heap s)) s)).
  { intros sh'. unfold UseShader, func, emit. cbn. unfold bind, call_bool, emit. cbn.
    destruct (native_bool N _ _ _); reflexivity. }
  intros ok. split; [apply Hrun|]. rewrite !Hrun. subst ok. cbn [fst snd].
  split; [destruct (native_bool N _ _ (al_use_shader sh)); naive_solver|].
  split; [by erewrite new_events_app by reflexivity|].
  by destruct (native_bool N _ _ _).
Qed.

(** C7: [SetShaderSampler] with a nil bitmap returns the sentinel
    [BitmapIsNull], distinct from every other error, and leaves the state
    as it was; with a bitmap it makes the Allegro call and returns an
    error, whose message contains the uniform name, exactly when the call
    answers false. *)
Theorem SetShaderSampler_checks_texture N name unit s :
  SetShaderSampler N name None unit s = (Done (Some BitmapIsNull), s) ∧
  BitmapIsNull ≠ ShaderIsNull ∧
  (∀ text, BitmapIsNull ≠ errorString text) ∧
  ∀ bmp : handle, ∃ ok mem msg,
    new_events s (SetShaderSampler N name (Some bmp) unit s).2 =
      [EvCString name (next s);
       EvCall (al_set_shader_sampler (Some (next s)) (Some bmp) (C_int unit)) (RBool ok) mem;
       EvFreeString (Some (next s))] ∧
    (SetShaderSampler N name (Some bmp) unit s).1 =
      Done (if ok then None else Some (errorString msg)) ∧
    Contains msg name.
Proof.
  split; [apply SetShaderSampler_nil|]. split; [done|]. split; [done|].
  intros bmp. rewrite SetShaderSampler_run.
  destruct (one_call_events N name
              (λ name_, al_set_shader_sampler name_ (Some bmp) (C_int unit))
              (fmt_Errorf ("failed to set shader sampler for " +:+ dquote +:+ "%s" +:+ dquote)
                          name) s) as (ok & mem & Hev & Hres).
  exists ok, mem. eexists. split; [exact Hev|]. split; [exact Hres|]. carries_name.
Qed.

(** ** Operations on a nil shader *)

Lemma Destroy_run sh s :
  Destroy sh s = (Done tt, emit (EvCall (al_destroy_shader sh) RVoid (heap s)) s).
Proof. reflexivity. Qed.

Lemma AttachSource_nil N stype source s :
  AttachSource N None stype source s = (Done (Some ShaderIsNull), s).
Proof. by destruct s. Qed.

Lemma AttachSourceFile_nil N stype filename s :
  AttachSourceFile N None stype filename s = (Done (Some ShaderIsNull), s).
Proof. by destruct s. Qed.

Lemma Build_nil N s : Build N None s = (Done (Some ShaderIsNull), s).
Proof. by destruct s. Qed.

Lemma Log_nil N s : Log N None s = (Done (EmptyString, Some ShaderIsNull), s).
Proof. by destruct s. Qed.

Lemma Platform_nil N s : Platform N None s = (Done (0, Some ShaderIsNull), s).
Proof. by destruct s. Qed.

(** C2, amended: invoked on a nil shader, [AttachSource],
    [AttachSourceFile], [Build], [Log] and [Platform] return
    [ShaderIsNull] and leave the state untouched, so no Allegro call is
    made; [Destroy] has no result and passes the nil pointer to
    [al_destroy_shader]. *)
Theorem nil_shader_fails_fast N op s :
  match op with
  | OpDestroy =>
      Destroy None s = (Done tt, emit (EvCall (al_destroy_shader None) RVoid (heap s)) s) ∧
      al_calls (new_events s (Destroy None s).2) = [(al_destroy_shader None, RVoid, heap s)]
  | _ => fails_fast N op s ∧ (run_shader_op N None op s).2 = s
  end.
Proof.
  destruct op; unfold fails_fast; cbn [run_shader_op]; unfold go_map;
    rewrite ?AttachSource_nil, ?AttachSourceFile_nil, ?Build_nil, ?Log_nil, ?Platform_nil;
    cbn [fst snd]; rewrite ?new_events_refl; try done.
  split; [reflexivity|]. rewrite Destroy_run. by erewrite new_events_app by reflexivity.
Qed.

(** C2, as stated, fails for [Destroy]: on a nil shader it returns no
    error and does call Allegro. *)
Lemma Destroy_nil_reaches_allegro : ¬ fails_fast native_ok OpDestroy s0.
Proof. intros [Hres _]. vm_compute in Hres. discriminate Hres. Qed.

(** C3: on an empty input [SetShaderIntVector] and
    [SetShaderFloatVector] make the bind call exactly once, with zero
    components, a NULL buffer and zero elements; nothing is allocated,
    and the result is an error only when the call answers false. *)
Theorem empty_vector_clears_array N name s :
  clears_array (IntVector []) name s (SetShaderIntVector N name [] s) ∧
  clears_array (FloatVector []) name s (SetShaderFloatVector N name [] s).
Proof.
  split.
  - change (SetShaderIntVector N name [] s) with (SetShaderVectorOf N name (IntVector []) s).
    rewrite vector_run_empty by done. eexists _, _. split; [|reflexivity].
    erewrite new_events_app by reflexivity. reflexivity.
  - change (SetShaderFloatVector N name [] s) with (SetShaderVectorOf N name (FloatVector []) s).
    rewrite vector_run_empty by done. eexists _, _. split; [|reflexivity].
    erewrite new_events_app by reflexivity. reflexivity.
Qed.

Lemma alloc_failure_distinct v name :
  alloc_failure v ≠ bind_failure v name ∧
  alloc_failure v ≠ ShaderIsNull ∧ alloc_failure v ≠ BitmapIsNull.
Proof. destruct v; repeat split; discriminate. Qed.

(** C4, amended: on a non-empty input whose scratch allocation fails,
    [SetShaderIntVector] returns the error "failed to allocate int
    vector" and [SetShaderFloatVector] the error "failed to allocate
    float vector", which differs from the bind error of every name and
    from the two sentinels, and they return without any Allegro call:
    the only events are the copy of the name, the failed allocation and
    the release of the name. *)
Theorem alloc_failure_precedes_bind N name v s :
  rows_given v ≠ [] → alloc_ok N name v s = false →
  (SetShaderVectorOf N name v s).1 =
    Done (Some (errors_New match v with
                           | IntVector _ => "failed to allocate int vector"
                           | FloatVector _ => "failed to allocate float vector"
                           end)) ∧
  (SetShaderVectorOf N name v s).1 = Done (Some (alloc_failure v)) ∧
  new_events s (SetShaderVectorOf N name v s).2 =
    [EvCString name (next s); EvMalloc (scratch_bytes v) None; EvFreeString (Some (next s))] ∧
  al_calls (new_events s (SetShaderVectorOf N name v s).2) = [] ∧
  (∀ name', alloc_failure v ≠ bind_failure v name') ∧
  alloc_failure v ≠ ShaderIsNull ∧ alloc_failure v ≠ BitmapIsNull.
Proof.
  intros Hrows Hfail. rewrite vector_run_alloc_fails by done. cbn [fst snd].
  erewrite new_events_app by reflexivity.
  split; [by destruct v|]. split; [done|]. split; [done|]. split; [done|].
  split; [intros name'; apply (alloc_failure_distinct v name')|].
  apply (alloc_failure_distinct v name).
Qed.

Lemma alloc_failure_precedes_bind_witness :
  rows_given (IntVector [[1; 2]]) ≠ [] ∧
  alloc_ok native_no_memory "u" (IntVector [[1; 2]]) s0 = false ∧
  (SetShaderVectorOf native_no_memory "u" (IntVector [[1; 2]]) s0).1 =
    Done (Some (errors_New "failed to allocate int vector")) ∧
  al_calls (new_events s0 (SetShaderVectorOf native_no_memory "u" (IntVector [[1; 2]]) s0).2) = [].
Proof.
  assert (H1 : rows_given (IntVector [[1; 2]]) ≠ []) by (vm_compute; discriminate).
  assert (H2 : alloc_ok native_no_memory "u" (IntVector [[1; 2]]) s0 = false) by reflexivity.
  split; [exact H1|]. split; [exact H2|].
  split; apply (alloc_failure_precedes_bind native_no_memory "u" (IntVector [[1; 2]]) s0 H1 H2).
Defined.

(** C4, as stated, fails: neither function returns an error with the
    text "failed to allocate vector buffer". *)
Lemma alloc_failure_text_differs :
  (SetShaderIntVector native_no_memory "u" [[1; 2]] s0).1
    ≠ Done (Some (errors_New "failed to allocate vector buffer")) ∧
  (SetShaderFloatVector native_no_memory "u" [[Float32frombits 1056964608]] s0).1
    ≠ Done (Some (errors_New "failed to allocate vector buffer")).
Proof. split; vm_compute; discriminate. Qed.

(** ** Sizes and shapes *)

Lemma rows_sent_lengths v : length <$> rows_sent v = length <$> rows_given v.
Proof.
  destruct v as [i|f]; unfold rows_sent, rows_given; rewrite <- !list_fmap_compose;
    apply list_fmap_ext; intros _ row _; cbn; by rewrite !length_fmap.
Qed.

Lemma rows_sent_length v : length (rows_sent v) = length (rows_given v).
Proof. destruct v; unfold rows_sent, rows_given; by rewrite !length_fmap. Qed.

Lemma rows_sent_rect v (m : nat) :
  Forall (λ row, length row = m) (rows_given v) →
  Forall (λ row, length row = m) (rows_sent v).
Proof.
  intros H.
  assert (H' : Forall (λ n, n = m) (length <$> rows_given v)) by (by apply Forall_fmap).
  rewrite <- rows_sent_lengths in H'. by apply Forall_fmap in H'.
Qed.

Lemma concat_rows_sent_length v :
  length (concat (rows_sent v)) = length (concat (rows_given v)).
Proof.
  rewrite !length_concat. f_equal. apply rows_sent_lengths.
Qed.

Lemma components_rect v M :
  rows_given v ≠ [] → Forall (λ row, len row = M) (rows_given v) → components v = M.
Proof.
  unfold components. destruct (rows_given v) as [|row rows]; [done|].
  intros _ Hrect. by apply Forall_cons_1 in Hrect as [? _].
Qed.

Lemma scratch_bytes_exact v :
  4 * (elems v * components v) < 2 ^ 64 →
  scratch_bytes v = 4 * (elems v * components v).
Proof.
  intros Hfit. change (2 ^ 64) with 18446744073709551616 in Hfit.
  assert (0 ≤ elems v * components v).
  { unfold elems, components. pose proof (len_nonneg (rows_given v)).
    pose proof (len_nonneg (rows_given v !!! 0%nat)). nia. }
  unfold scratch_bytes, int_mul, size_t_mul. rewrite int_small by lia.
  replace (C_size_t (match v with IntVector _ => Sizeof_C_int | FloatVector _ => Sizeof_C_float end))
    with 4 by (by destruct v).
  rewrite (C_size_t_small (elems v * components v)) by lia.
  rewrite C_size_t_small by lia. lia.
Qed.

Lemma in_block_iff size idx : in_block size idx = true ↔ 0 ≤ idx ∧ 4 * idx + 4 ≤ size.
Proof. unfold in_block. rewrite andb_true_iff, Z.leb_le, Z.leb_le. done. Qed.

Lemma rows_sent_given v : fits_C_int v → rows_sent v = rows_given v.
Proof.
  destruct v as [i|f]; [|done]. cbn. intros Hfit.
  apply Forall_fmap_ext_1. eapply Forall_impl; [exact Hfit|].
  intros row Hrow. apply Forall_fmap_ext_1. eapply Forall_impl; [exact Hrow|].
  intros x Hx. cbn beta in Hx. cbn beta. by rewrite C_int_small by lia.
Qed.

(** ** The heap after a run *)

Lemma fresh_next s : fresh s → heap s !! next s = None ∧ heap s !! Pos.succ (next s) = None.
Proof. intros Hs. split; apply Hs; lia. Qed.

Lemma heap_restored name s size vals :
  fresh s → 4 * len vals ≤ size →
  delete (next s) (delete (Pos.succ (next s))
    (poke_all (Pos.succ (next s)) 0 vals
       (<[Pos.succ (next s) := CMem size ∅]> (heap_named name s)))) = heap s.
Proof.
  intros [Hq Hp]%fresh_next Hsize. unfold heap_named.
  rewrite (poke_all_block _ size 0 vals ∅) by (first [lia | apply lookup_insert_eq]).
  rewrite insert_insert_eq, delete_insert_id.
  - by apply delete_insert_id.
  - rewrite lookup_insert_ne by lia. done.
Qed.

(** Under [fits_buffer] every prefix of the scalars fits the block. *)
Lemma fits_buffer_prefix v (pre post : list cval) :
  fits_buffer v → concat (rows_sent v) = pre ++ post → 4 * len pre ≤ scratch_bytes v.
Proof.
  intros [Hsum Hbytes] E. rewrite scratch_bytes_exact by done.
  rewrite E, len_app in Hsum. pose proof (len_nonneg post). lia.
Qed.

Lemma fits_buffer_all v : fits_buffer v → 4 * len (concat (rows_sent v)) ≤ scratch_bytes v.
Proof. intros Hfit. apply (fits_buffer_prefix v _ []); [done|]. by rewrite app_nil_r. Qed.

Lemma block_released (q p : positive) (h : gmap positive Block) :
  delete q (delete p h) !! p = None.
Proof.
  destruct (decide (q = p)) as [->|Hne]; [apply lookup_delete_eq|].
  rewrite lookup_delete_ne by done. apply lookup_delete_eq.
Qed.

Lemma releases_of_marshal name q size p vals c r mem :
  q ≠ p →
  releases_of p (EvCString name q :: EvMalloc size (Some p) :: store_events p 0 vals ++
                   [EvCall c r mem; EvFree (Some p); EvFreeString (Some q)]) = 1%nat.
Proof.
  intros Hne. change (releases_of p (?a :: ?b :: ?l)) with (releases_of p l).
  rewrite releases_of_app, releases_of_store_events. unfold releases_of. cbn.
  rewrite Pos.eqb_refl. by destruct (Pos.eqb_spec q p).
Qed.

Lemma releases_of_panic name q size p vals :
  q ≠ p →
  releases_of p (EvCString name q :: EvMalloc size (Some p) :: store_events p 0 vals ++
                   [EvFree (Some p); EvFreeString (Some q)]) = 1%nat.
Proof.
  intros Hne. change (releases_of p (?a :: ?b :: ?l)) with (releases_of p l).
  rewrite releases_of_app, releases_of_store_events. unfold releases_of. cbn.
  rewrite Pos.eqb_refl. by destruct (Pos.eqb_spec q p).
Qed.

Lemma mallocs_of_marshal name q size p vals tail :
  mallocs_of tail = [] →
  mallocs_of (EvCString name q :: EvMalloc size (Some p) :: store_events p 0 vals ++ tail)
  = [(size, Some p)].
Proof.
  intros Htail. change (mallocs_of (?a :: EvMalloc ?sz ?b :: ?l)) with ((sz, b) :: mallocs_of l).
  by rewrite mallocs_of_app, mallocs_of_store_events, Htail.
Qed.

(** C5: on a non-empty input whose scratch allocation succeeds, the run
    allocates one block and releases it exactly once before the function
    ends, by [free] and by nothing else, after the stores and after the
    bind call if there was one, whatever the call answers (and also when
    the loop panics); when the function ends the block is gone, and, for
    an input that fits its buffer, from a state whose unused addresses
    are free, the heap is the heap before the call. *)
Theorem scratch_released_once N name v s :
  rows_given v ≠ [] → alloc_ok N name v s = true →
  released_once s (SetShaderVectorOf N name v s).2 ∧
  (fresh s → fits_buffer v → heap (SetShaderVectorOf N name v s).2 = heap s).
Proof.
  intros Hrows Halloc. unfold released_once.
  assert (Hne : next s ≠ Pos.succ (next s)) by lia.
  destruct (Z_le_gt_dec (len (concat (rows_sent v))) garr_len) as [Hfit|Hlong].
  - rewrite vector_run_marshals by done. cbn [snd heap]. split.
    + exists (scratch_bytes v), (Pos.succ (next s)).
      erewrite new_events_app by reflexivity.
      eexists (EvCString name (next s) :: EvMalloc (scratch_bytes v) (Some (Pos.succ (next s))) ::
                 store_events (Pos.succ (next s)) 0 (concat (rows_sent v)) ++ [EvCall _ _ _]),
              [EvFreeString (Some (next s))].
      split; [by apply mallocs_of_marshal|].
      split; [cbn [app]; rewrite <- app_assoc; reflexivity|].
      split; [set_solver|]. split; [by apply releases_of_marshal|]. split; [done|].
      split; [done|]. apply block_released.
    + intros Hs Hbuf. apply heap_restored; [done|]. by apply fits_buffer_all.
  - destruct (vector_run_panics N name v s) as (pre & post & E & _ & ->); [done|done|lia|].
    cbn [snd heap]. split.
    + exists (scratch_bytes v), (Pos.succ (next s)).
      erewrite new_events_app by reflexivity.
      eexists (EvCString name (next s) :: EvMalloc (scratch_bytes v) (Some (Pos.succ (next s))) ::
                 store_events (Pos.succ (next s)) 0 pre),
              [EvFreeString (Some (next s))].
      split; [by apply mallocs_of_marshal|].
      split; [done|].
      split; [set_solver|]. split; [by apply releases_of_panic|]. split; [done|].
      split; [done|]. apply block_released.
    + intros Hs Hbuf. apply heap_restored; [done|]. by eapply fits_buffer_prefix.
Qed.

Lemma fresh_s0 : fresh s0.
Proof. intros a _. apply lookup_empty. Qed.

Lemma scratch_released_once_witness :
  rows_given (FloatVector [[Float32frombits 1056964608]]) ≠ [] ∧
  alloc_ok native_rejects "u" (FloatVector [[Float32frombits 1056964608]]) s0 = true ∧
  released_once s0
    (SetShaderVectorOf native_rejects "u" (FloatVector [[Float32frombits 1056964608]]) s0).2 ∧
  heap (SetShaderVectorOf native_rejects "u" (FloatVector [[Float32frombits 1056964608]]) s0).2
    = heap s0.
Proof.
  assert (H1 : rows_given (FloatVector [[Float32frombits 1056964608]]) ≠ [])
    by (vm_compute; discriminate).
  assert (H2 : alloc_ok native_rejects "u" (FloatVector [[Float32frombits 1056964608]]) s0 = true)
    by reflexivity.
  assert (H3 : fits_buffer (FloatVector [[Float32frombits 1056964608]]))
    by (split; [vm_compute; discriminate|reflexivity]).
  split; [exact H1|]. split; [exact H2|].
  destruct (scratch_released_once native_rejects "u" _ s0 H1 H2) as [Hrel Hheap].
  split; [exact Hrel|exact (Hheap fresh_s0 H3)].
Defined.

(** C1, amended: for a non-empty input whose rows all have length [M],
    with N * M at most 2^30 - 1 (the length of the array view), N within
    the range of a C [int] and a successful scratch allocation, the run
    makes exactly one Allegro call, the bind, with [M] components, N
    elements and a pointer to a block whose cell [row * M + col] holds
    [input[row][col]] converted by [C.int] (resp. [C.float]); when every
    integer of the input lies in the range of a C [int] the cell holds
    [input[row][col]] itself.  The statement is the same for both
    variants. *)
Theorem rectangular_input_marshalled N name v M s :
  rows_given v ≠ [] →
  Forall (λ row, len row = M) (rows_given v) →
  elems v * M ≤ garr_len →
  elems v ≤ 2147483647 →
  alloc_ok N name v s = true →
  marshalled (bind_entry v) (rows_sent v) M s (SetShaderVectorOf N name v s).2 ∧
  (fits_C_int v →
   marshalled (bind_entry v) (rows_given v) M s (SetShaderVectorOf N name v s).2).
Proof.
  intros Hrows Hrect Hsize Helems Halloc.
  assert (Hsent : marshalled (bind_entry v) (rows_sent v) M s (SetShaderVectorOf N name v s).2);
    [|split; [exact Hsent|]; intros Hfit; by rewrite <- (rows_sent_given v Hfit)].
  pose proof (components_rect v M Hrows Hrect) as Hcomp.
  pose proof (len_nonneg (rows_given v)) as HN. fold (elems v) in HN.
  assert (1 ≤ elems v) as HN1.
  { unfold elems, len. destruct (rows_given v); [done|]. cbn. lia. }
  assert (0 ≤ M) as HM by (rewrite <- Hcomp; apply len_nonneg).
  assert (Hrect' : Forall (λ row, length row = Z.to_nat M) (rows_sent v)).
  { apply rows_sent_rect. eapply Forall_impl; [exact Hrect|]. unfold len. intros row <-. lia. }
  assert (Hlen : len (concat (rows_sent v)) = elems v * M).
  { unfold len. rewrite (concat_length_rect _ _ Hrect'), rows_sent_length.
    unfold elems, len. lia. }
  rewrite garr_len_val in Hsize.
  assert (Hbytes : scratch_bytes v = 4 * (elems v * M)).
  { rewrite scratch_bytes_exact; rewrite Hcomp; [done|]. change (2 ^ 64) with 18446744073709551616. lia. }
  unfold marshalled.
  rewrite vector_run_marshals by (first [done | rewrite Hlen, garr_len_val; lia]).
  cbn [snd]. erewrite new_events_app by reflexivity. rewrite al_calls_marshal.
  eexists (Some (next s)), (Pos.succ (next s)), _, _, (scratch_bytes v), _.
  split; [|split].
  - rewrite Hcomp, !C_int_small by nia. unfold len. rewrite rows_sent_length. reflexivity.
  - apply poke_all_lookup, lookup_insert_eq.
  - intros row col slice x Hrow Hcol.
    pose proof (concat_lookup_rect _ _ _ _ _ _ Hrect' Hrow Hcol) as Hk.
    pose proof (lookup_lt_Some _ _ _ Hk) as Hlt.
    replace (Z.of_nat row * M + Z.of_nat col) with (0 + Z.of_nat (row * Z.to_nat M + col)) by lia.
    apply poke_cells_lookup; [exact Hk|].
    apply in_block_iff. rewrite Hbytes. unfold len in Hlen. lia.
Qed.

Lemma rectangular_input_marshalled_witness :
  rows_given (IntVector [[1; 2]; [3; 4]]) ≠ [] ∧
  Forall (λ row, len row = 2) (rows_given (IntVector [[1; 2]; [3; 4]])) ∧
  elems (IntVector [[1; 2]; [3; 4]]) * 2 ≤ garr_len ∧
  elems (IntVector [[1; 2]; [3; 4]]) ≤ 2147483647 ∧
  alloc_ok native_ok "u" (IntVector [[1; 2]; [3; 4]]) s0 = true ∧
  marshalled al_set_shader_int_vector [[CInt 1; CInt 2]; [CInt 3; CInt 4]] 2 s0
    (SetShaderIntVector native_ok "u" [[1; 2]; [3; 4]] s0).2.
Proof.
  assert (H1 : rows_given (IntVector [[1; 2]; [3; 4]]) ≠ []) by (vm_compute; discriminate).
  assert (H2 : Forall (λ row, len row = 2) (rows_given (IntVector [[1; 2]; [3; 4]])))
    by (repeat constructor).
  assert (H3 : elems (IntVector [[1; 2]; [3; 4]]) * 2 ≤ garr_len) by (vm_compute; discriminate).
  assert (H4 : elems (IntVector [[1; 2]; [3; 4]]) ≤ 2147483647) by (vm_compute; discriminate).
  assert (H5 : alloc_ok native_ok "u" (IntVector [[1; 2]; [3; 4]]) s0 = true) by reflexivity.
  repeat (split; [assumption|]).
  exact (proj1 (rectangular_input_marshalled native_ok "u" (IntVector [[1; 2]; [3; 4]]) 2 s0
                  H1 H2 H3 H4 H5)).
Defined.

(** C1, as stated, fails: on a 64-bit target the Go [int] 2^31 does not
    reach the buffer as given, [C.int] wraps it to -2^31. *)
Lemma wide_int_not_marshalled :
  ¬ marshalled al_set_shader_int_vector (rows_given (IntVector [[2147483648]])) 1 s0
      (SetShaderIntVector native_ok "u" [[2147483648]] s0).2.
Proof.
  intros (name_ & buf & r & mem & size & cells & Hcalls & Hmem & Hcells).
  vm_compute in Hcalls. injection Hcalls as _ <- _ <-.
  vm_compute in Hmem. injection Hmem as _ <-.
  specialize (Hcells 0%nat 0%nat [CInt 2147483648] (CInt 2147483648) eq_refl eq_refl).
  vm_compute in Hcells. discriminate Hcells.
Qed.

(** ** Where the stores land *)

Lemma stores_of_marshal name q size p vals tail :
  stores_of tail = [] →
  stores_of (EvCString name q :: EvMalloc size (Some p) :: store_events p 0 vals ++ tail)
  = stores_of (store_events p 0 vals).
Proof.
  intros Htail. change (stores_of (?a :: ?b :: ?l)) with (stores_of l).
  by rewrite stores_of_app, Htail, app_nil_r.
Qed.

Lemma store_events_in_order p vals :
  length (stores_of (store_events p 0 vals)) = length vals ∧
  ∀ (k : nat) x, vals !! k = Some x →
    stores_of (store_events p 0 vals) !! k = Some (p, Z.of_nat k, x).
Proof.
  split; [apply stores_of_store_events_length|].
  intros k x Hk. by rewrite (stores_of_store_events p 0 vals k x Hk), Z.add_0_l.
Qed.

Lemma store_events_within p vals (K : Z) :
  0 ≤ K →
  Forall (λ st : positive * Z * cval, st.1.1 = p ∧ in_block (4 * K) st.1.2 = true)
         (stores_of (store_events p 0 vals)) ↔ len vals ≤ K.
Proof.
  intros HK. destruct (store_events_in_order p vals) as [Hlen Hnth].
  rewrite Forall_lookup. split.
  - intros Hall. destruct (Z_le_gt_dec (len vals) K) as [|Hgt]; [done|]. exfalso.
    unfold len in Hgt.
    destruct (lookup_lt_is_Some_2 vals (Z.to_nat K)) as [x Hx]; [lia|].
    destruct (Hall _ _ (Hnth _ _ Hx)) as [_ Hin]. cbn in Hin. apply in_block_iff in Hin. lia.
  - intros Hle j st Hj.
    pose proof (lookup_lt_Some _ _ _ Hj) as Hlt. rewrite Hlen in Hlt.
    destruct (lookup_lt_is_Some_2 vals j Hlt) as [x Hx].
    rewrite (Hnth _ _ Hx) in Hj. injection Hj as <-. cbn. split; [done|].
    apply in_block_iff. unfold len in Hle. lia.
Qed.

(** C6, amended: for a non-empty input, ragged or not, with a sum of
    row lengths of at most 2^30 - 1, a byte count 4 * N * M that fits
    [size_t] and a successful scratch allocation, the run allocates one
    block, of N * M scalars; its stores are the scalars of the rows, in
    row order, at the cells 0, 1, 2, ... of that block, one store per
    scalar; and all stores lie inside the block if and only if the sum
    of the row lengths is at most N * M.  For the input [[1]; [3; 4]],
    whose second row is longer than row 0, a store to the allocated
    block lands past its end. *)
Theorem ragged_input_written_in_order N name v s :
  rows_given v ≠ [] →
  alloc_ok N name v s = true →
  len (concat (rows_sent v)) ≤ garr_len →
  4 * (elems v * components v) < 2 ^ 64 →
  (∃ buf,
     mallocs_of (new_events s (SetShaderVectorOf N name v s).2)
       = [(4 * (elems v * components v), Some buf)] ∧
     writes_in_order (rows_sent v) buf s (SetShaderVectorOf N name v s).2 ∧
     (stores_within buf (4 * (elems v * components v))
        (new_events s (SetShaderVectorOf N name v s).2)
      ↔ len (concat (rows_sent v)) ≤ elems v * components v)) ∧
  ∃ i slice size buf idx x,
    i !! 1%nat = Some slice ∧ len (i !!! 0%nat) < len slice ∧
    mallocs_of (new_events s0 (SetShaderIntVector native_ok "u" i s0).2) = [(size, Some buf)] ∧
    (buf, idx, x) ∈ stores_of (new_events s0 (SetShaderIntVector native_ok "u" i s0).2) ∧
    in_block size idx = false.
Proof.
  intros Hrows Halloc Hlen Hfit.
  assert (0 ≤ elems v * components v) as HK.
  { unfold elems, components. pose proof (len_nonneg (rows_given v)).
    pose proof (len_nonneg (rows_given v !!! 0%nat)). nia. }
  split.
  - exists (Pos.succ (next s)). unfold writes_in_order, stores_within.
    rewrite vector_run_marshals by done. cbn [snd].
    erewrite new_events_app by reflexivity.
    rewrite stores_of_marshal, mallocs_of_marshal by done.
    rewrite scratch_bytes_exact by done.
    split; [done|]. split; [apply store_events_in_order|].
    by apply store_events_within.
  - exists [[1]; [3; 4]], [3; 4], 8, 2%positive, 2, (CInt 4).
    split; [done|]. split; [done|]. split; [by vm_compute|].
    split; [|done]. vm_compute. set_solver.
Qed.

Lemma ragged_input_written_in_order_witness :
  rows_given (IntVector [[1]; [3; 4]]) ≠ [] ∧
  alloc_ok native_ok "u" (IntVector [[1]; [3; 4]]) s0 = true ∧
  len (concat (rows_sent (IntVector [[1]; [3; 4]]))) ≤ garr_len ∧
  4 * (elems (IntVector [[1]; [3; 4]]) * components (IntVector [[1]; [3; 4]])) < 2 ^ 64 ∧
  ∃ buf,
    mallocs_of (new_events s0 (SetShaderIntVector native_ok "u" [[1]; [3; 4]] s0).2)
      = [(8, Some buf)] ∧
    writes_in_order [[CInt 1]; [CInt 3; CInt 4]] buf s0
      (SetShaderIntVector native_ok "u" [[1]; [3; 4]] s0).2 ∧
    (stores_within buf 8 (new_events s0 (SetShaderIntVector native_ok "u" [[1]; [3; 4]] s0).2)
     ↔ 3 ≤ 2).
Proof.
  assert (H1 : rows_given (IntVector [[1]; [3; 4]]) ≠ []) by (vm_compute; discriminate).
  assert (H2 : alloc_ok native_ok "u" (IntVector [[1]; [3; 4]]) s0 = true) by reflexivity.
  assert (H3 : len (concat (rows_sent (IntVector [[1]; [3; 4]]))) ≤ garr_len)
    by (vm_compute; discriminate).
  assert (H4 : 4 * (elems (IntVector [[1]; [3; 4]]) * components (IntVector [[1]; [3; 4]]))
               < 2 ^ 64) by reflexivity.
  split; [exact H1|]. split; [exact H2|]. split; [exact H3|]. split; [exact H4|].
  exact (proj1 (ragged_input_written_in_order native_ok "u" (IntVector [[1]; [3; 4]]) s0
                  H1 H2 H3 H4)).
Defined.

(** ** Inputs longer than the array view *)

(** Past [garr_len] scalars the loop panics: the stores made are the
    first [garr_len] ones, Allegro is never called. *)
Lemma vector_run_too_long N name v s :
  rows_given v ≠ [] → alloc_ok N name v s = true →
  garr_len < len (concat (rows_sent v)) →
  ∃ pre st,
    len pre = garr_len ∧
    SetShaderVectorOf N name v s = (Panicked (index_panic garr_len garr_len), st) ∧
    stores_of (new_events s st) = stores_of (store_events (Pos.succ (next s)) 0 pre) ∧
    al_calls (new_events s st) = [].
Proof.
  intros Hrows Halloc Hlong.
  destruct (vector_run_panics N name v s Hrows Halloc Hlong)
    as (pre & post & _ & Hpre & Hrun).
  eexists pre, _. split; [exact Hpre|]. split; [exact Hrun|].
  erewrite new_events_app by reflexivity.
  split; [by rewrite stores_of_marshal|apply al_calls_panic].
Qed.

Lemma SetShaderVectorOf_int N name i :
  SetShaderIntVector N name i = SetShaderVectorOf N name (IntVector i).
Proof. reflexivity. Qed.

Lemma long_row_length : len long_row = 1073741824.
Proof. unfold long_row, len. rewrite length_replicate. apply Z2Nat.id. lia. Qed.

Lemma long_rows_length : len (concat long_rows) = 1073741824.
Proof.
  unfold long_rows. cbn [concat]. rewrite !app_nil_r. apply long_row_length.
Qed.

Lemma long_rows_nonempty : rows_given (IntVector long_rows) ≠ [].
Proof.
  destruct (IntVector_facts long_rows) as (_ & _ & _ & Hnil).
  rewrite Hnil. unfold long_rows. discriminate.
Qed.

Lemma long_rows_too_long : garr_len < len (concat (rows_sent (IntVector long_rows))).
Proof.
  destruct (IntVector_facts long_rows) as (_ & _ & Hsent & _).
  rewrite Hsent, len_fmap, long_rows_length, garr_len_val. lia.
Qed.

Lemma long_rows_alloc : alloc_ok native_ok "u" (IntVector long_rows) s0 = true.
Proof. reflexivity. Qed.

Lemma length_differs {A B} (l : list A) (k : list B) :
  len l = garr_len → len k = 1073741824 → length l ≠ length k.
Proof. unfold len. rewrite garr_len_val. lia. Qed.

(** C6, as stated, fails on an input of more than 2^30 - 1 scalars: the
    loop stops by a panic at index 2^30 - 1, so fewer scalars are stored
    than the rows hold. *)
Lemma long_input_not_written :
  ¬ ∃ buf, writes_in_order (rows_sent (IntVector long_rows)) buf s0
             (SetShaderIntVector native_ok "u" long_rows s0).2.
Proof.
  intros (buf & Hcount & _).
  rewrite SetShaderVectorOf_int in Hcount.
  destruct (vector_run_too_long native_ok "u" (IntVector long_rows) s0
              long_rows_nonempty long_rows_alloc long_rows_too_long)
    as (pre & st & Hpre & Hrun & Hstores & _).
  rewrite Hrun in Hcount. unfold snd in Hcount.
  rewrite Hstores, stores_of_store_events_length in Hcount.
  destruct (IntVector_facts long_rows) as (_ & _ & Hsent & _).
  rewrite Hsent, length_fmap in Hcount.
  exact (length_differs pre (concat long_rows) Hpre long_rows_length Hcount).
Qed.

(** A single row of 2^30 scalars is rectangular, and is not marshalled
    either: the loop panics before the bind call. *)
Lemma long_row_not_marshalled :
  ¬ marshalled al_set_shader_int_vector (rows_sent (IntVector [long_row])) 1073741824 s0
      (SetShaderIntVector native_ok "u" [long_row] s0).2.
Proof.
  intros (name_ & buf & r & mem & size & cells & Hcalls & _).
  rewrite SetShaderVectorOf_int in Hcalls.
  destruct (IntVector_facts [long_row]) as (_ & _ & Hsent & Hnil).
  destruct (vector_run_too_long native_ok "u" (IntVector [long_row]) s0)
    as (pre & st & _ & Hrun & _ & Hnone).
  - rewrite Hnil. discriminate.
  - reflexivity.
  - rewrite Hsent, len_fmap. cbn [concat]. rewrite app_nil_r, long_row_length, garr_len_val. lia.
  - rewrite Hrun in Hcalls. unfold snd in Hcalls. rewrite Hnone in Hcalls. discriminate Hcalls.
Qed.

(** * Beyond the stated properties *)

Lemma quiet_refl s : quiet s s.
Proof. repeat split; [lia|]. exists []. by rewrite app_nil_r. Qed.

Lemma quiet_trans s1 s2 s3 : quiet s1 s2 → quiet s2 s3 → quiet s1 s3.
Proof.
  intros (Hh1 & Hn1 & Hd1 & evs1 & Ht1) (Hh2 & Hn2 & Hd2 & evs2 & Ht2).
  repeat split; [congruence|lia|congruence|].
  exists (evs1 ++ evs2). by rewrite Ht2, Ht1, app_assoc.
Qed.

Lemma quiet_fresh s s' : fresh s → quiet s s' → fresh s'.
Proof.
  intros Hs (Hh & Hn & _) a Ha. rewrite Hh. apply Hs. lia.
Qed.

Lemma quiet_emit e s : quiet s (emit e s).
Proof. repeat split; [cbn; lia|]. by exists [e]. Qed.

Lemma quiet_one_call N str c failure s :
  fresh s → quiet s (one_call N str c failure s).2.
Proof.
  intros [Hq _]%fresh_next. unfold one_call, heap_named. cbn [snd].
  repeat split; cbn [heap next defers trace].
  - by apply delete_insert_id.
  - lia.
  - by eexists.
Qed.

(** ** Functions that only make one call *)

Ltac run_direct :=
  unfold func, emit; cbn; unfold bind, call_bool, call_shader, call_string, call_int, emit; cbn;
  repeat match goal with
         | |- context [native_bool ?N ?t ?h ?c] => destruct (native_bool N t h c)
         | |- context [native_shader ?N ?t ?h ?c] => destruct (native_shader N t h c)
         end; reflexivity.

Lemma Build_run N sh s :
  let ok := native_bool N (trace s) (heap s) (al_build_shader (Some sh)) in
  Build N (Some sh) s =
  (Done (if ok then None else Some (errors_New "failed to build shader")),
   emit (EvCall (al_build_shader (Some sh)) (RBool ok) (heap s)) s).
Proof. unfold Build. run_direct. Qed.

Lemma UseShader_run N sh s :
  let ok := native_bool N (trace s) (heap s) (al_use_shader sh) in
  UseShader N sh s =
  (Done (if ok then None else Some (errors_New "failed to use shader")),
   emit (EvCall (al_use_shader sh) (RBool ok) (heap s)) s).
Proof. unfold UseShader. run_direct. Qed.

Lemma Log_run N sh s :
  let log := native_string N (trace s) (heap s) (al_get_shader_log (Some sh)) in
  Log N (Some sh) s =
  (Done (log, None), emit (EvCall (al_get_shader_log (Some sh)) (RString log) (heap s)) s).
Proof. unfold Log. run_direct. Qed.

Lemma Platform_run N sh s :
  let p := native_int N (trace s) (heap s) (al_get_shader_platform (Some sh)) in
  Platform N (Some sh) s =
  (Done (p, None), emit (EvCall (al_get_shader_platform (Some sh)) (RInt p) (heap s)) s).
Proof. unfold Platform. run_direct. Qed.

Lemma CreateShader_run N platform s :
  let sh := native_shader N (trace s) (heap s) (al_create_shader (C_enum platform)) in
  CreateShader N platform s =
  (Done (sh, match sh with
             | Some _ => None
             | None => Some (errors_New "failed to create shader")
             end),
   emit (EvCall (al_create_shader (C_enum platform)) (RShader sh) (heap s)) s).
Proof. unfold CreateShader. run_direct. Qed.

Lemma DefaultShaderSource_run N platform typ s :
  let c := al_get_default_shader_source (C_enum platform) (C_enum typ) in
  let src := native_string N (trace s) (heap s) c in
  DefaultShaderSource N platform typ s =
  (Done src, emit (EvCall c (RString src) (heap s)) s).
Proof. unfold DefaultShaderSource. run_direct. Qed.

(** ** Every run is quiet *)

Lemma quiet_vector N name v s :
  fresh s → fits_buffer v → quiet s (SetShaderVectorOf N name v s).2.
Proof.
  intros Hs Hbuf. pose proof (fresh_next s Hs) as [Hq Hp].
  destruct (decide (rows_given v = [])) as [Hnil|Hrows].
  { rewrite vector_run_empty by done. unfold heap_named. cbn [snd].
    repeat split; cbn [heap next defers trace];
      [by apply delete_insert_id | lia | by eexists]. }
  destruct (alloc_ok N name v s) eqn:Halloc.
  2:{ rewrite vector_run_alloc_fails by done. unfold heap_named. cbn [snd].
      repeat split; cbn [heap next defers trace];
        [by apply delete_insert_id | lia | by eexists]. }
  destruct (Z_le_gt_dec (len (concat (rows_sent v))) garr_len) as [Hfit|Hlong].
  - rewrite vector_run_marshals by done. cbn [snd].
    repeat split; cbn [heap next defers trace];
      [by apply heap_restored, fits_buffer_all | lia | by eexists].
  - destruct (vector_run_panics N name v s) as (pre & post & E & _ & ->); [done|done|lia|].
    cbn [snd].
    repeat split; cbn [heap next defers trace];
      [apply heap_restored; [done|by eapply fits_buffer_prefix] | lia | by eexists].
Qed.

Lemma quiet_named N op s :
  fresh s → within_buffer (Bound op) → quiet s (run_named N op s).2.
Proof.
  intros Hs Hbuf.
  destruct op as [name [bmp|] unit|name matrix|name i|name f|name b|name v|[sh|] stype filename];
    cbn [run_named].
  - rewrite SetShaderSampler_run. by apply quiet_one_call.
  - rewrite SetShaderSampler_nil. apply quiet_refl.
  - rewrite SetShaderMatrix_run. by apply quiet_one_call.
  - rewrite SetShaderInt_run. by apply quiet_one_call.
  - rewrite SetShaderFloat_run. by apply quiet_one_call.
  - rewrite SetShaderBool_run. by apply quiet_one_call.
  - by apply quiet_vector.
  - rewrite AttachSourceFile_run. by apply quiet_one_call.
  - rewrite AttachSourceFile_nil. apply quiet_refl.
Qed.

Lemma quiet_shader_op N sh op s : fresh s → quiet s (run_shader_op N sh op s).2.
Proof.
  intros Hs. destruct sh as [sh|].
  - destruct op; cbn [run_shader_op]; unfold go_map.
    + rewrite AttachSource_run. by apply quiet_one_call.
    + rewrite AttachSourceFile_run. by apply quiet_one_call.
    + rewrite Build_run. apply quiet_emit.
    + rewrite Log_run. apply quiet_emit.
    + rewrite Platform_run. apply quiet_emit.
    + rewrite Destroy_run. apply quiet_emit.
  - destruct op; cbn [run_shader_op]; unfold go_map;
      rewrite ?AttachSource_nil, ?AttachSourceFile_nil, ?Build_nil, ?Log_nil, ?Platform_nil,
        ?Destroy_run; cbn [snd]; first [apply quiet_refl | apply quiet_emit].
Qed.

Lemma forget_state {A} (g : Go A) s : (forget g s).2 = (g s).2.
Proof. unfold forget, go_map. by destruct (g s) as [[a|msg] s']. Qed.

Lemma quiet_operation N o s :
  fresh s → within_buffer o → quiet s (run_operation N o s).2.
Proof.
  intros Hs Hbuf. destruct o; cbn [run_operation]; rewrite forget_state.
  - rewrite CreateShader_run. apply quiet_emit.
  - by apply quiet_shader_op.
  - rewrite UseShader_run. apply quiet_emit.
  - by apply quiet_named.
  - rewrite DefaultShaderSource_run. apply quiet_emit.
Qed.

(** X1: whatever operations of the file a caller runs one after the
    other from a state whose unused addresses are free, each vector
    input fitting its scratch buffer, and whatever Allegro and the
    allocator answer, the C heap afterwards is the heap before (every
    copied string and every scratch buffer has been freed), the unused
    addresses are still free, the caller's deferred calls are untouched
    and the events only grow. *)
Theorem operations_leave_heap N os s :
  fresh s → Forall within_buffer os →
  heap (run_operations N os s).2 = heap s ∧
  fresh (run_operations N os s).2 ∧
  defers (run_operations N os s).2 = defers s ∧
  ∃ evs, trace (run_operations N os s).2 = trace s ++ evs.
Proof.
  intros Hs Hos.
  assert (Hq : quiet s (run_operations N os s).2).
  { revert s Hs. induction Hos as [|o os Ho _ IH]; intros s Hs; [apply quiet_refl|].
    cbn [run_operations]. pose proof (quiet_operation N o s Hs Ho) as Hrun.
    destruct (run_operation N o s) as [[[]|msg] s1]; cbn [snd] in *; [|exact Hrun].
    eapply quiet_trans; [exact Hrun|]. apply IH. by eapply quiet_fresh. }
  split; [apply Hq|]. split; [by eapply quiet_fresh|]. split; apply Hq.
Qed.

Lemma operations_leave_heap_witness :
  fresh s0 ∧
  Forall within_buffer
    [Create 0; OnShader (Some 1%positive) (OpAttachSource 1 "void main() {}");
     OnShader (Some 1%positive) OpBuild; Use None;
     Bound (BindVector "v" (IntVector [[1; 2]; [3]]))] ∧
  heap (run_operations native_rejects
          [Create 0; OnShader (Some 1%positive) (OpAttachSource 1 "void main() {}");
           OnShader (Some 1%positive) OpBuild; Use None;
           Bound (BindVector "v" (IntVector [[1; 2]; [3]]))] s0).2 = heap s0.
Proof.
  assert (H : Forall within_buffer
    [Create 0; OnShader (Some 1%positive) (OpAttachSource 1 "void main() {}");
     OnShader (Some 1%positive) OpBuild; Use None;
     Bound (BindVector "v" (IntVector [[1; 2]; [3]]))]).
  { repeat constructor. vm_compute. discriminate. }
  split; [exact fresh_s0|]. split; [exact H|].
  exact (proj1 (operations_leave_heap native_rejects _ s0 fresh_s0 H)).
Defined.

(** ** Panics *)

Lemma forget_panics {A} (g : Go A) s msg :
  (forget g s).1 = Panicked msg ↔ (g s).1 = Panicked msg.
Proof. unfold forget, go_map. destruct (g s) as [[a|msg'] s']; cbn; naive_solver. Qed.

Lemma index_panic_garr :
  index_panic garr_len garr_len
  = "runtime error: index out of range [1073741823] with length 1073741823".
Proof. by vm_compute. Qed.

Lemma vector_panics_iff N name v s msg :
  (SetShaderVectorOf N name v s).1 = Panicked msg ↔
  msg = index_panic garr_len garr_len ∧ rows_given v ≠ [] ∧ alloc_ok N name v s = true ∧
  garr_len < len (concat (rows_sent v)).
Proof.
  destruct (decide (rows_given v = [])) as [Hnil|Hrows].
  { rewrite vector_run_empty by done. cbn [fst].
    destruct (native_bool N _ _ _); (split; [done|by intros (_ & ? & _)]). }
  destruct (alloc_ok N name v s) eqn:Halloc.
  2:{ rewrite vector_run_alloc_fails by done. cbn [fst].
      split; [done|by intros (_ & _ & ? & _)]. }
  destruct (Z_le_gt_dec (len (concat (rows_sent v))) garr_len) as [Hfit|Hlong].
  - rewrite vector_run_marshals by done. cbn [fst].
    destruct (native_bool N _ _ _); split; try done; intros (_ & _ & _ & ?); lia.
  - destruct (vector_run_panics N name v s) as (pre & post & _ & _ & ->); [done|done|lia|].
    cbn [fst]. split; [intros [= <-]; repeat split; [done|lia]|by intros [-> _]].
Qed.

Lemma named_panics_iff N op s msg :
  (run_named N op s).1 = Panicked msg ↔
  ∃ name v, op = BindVector name v ∧ (SetShaderVectorOf N name v s).1 = Panicked msg.
Proof.
  destruct op as [name [bmp|] unit|name matrix|name i|name f|name b|name v|[sh|] stype filename];
    cbn [run_named];
    rewrite ?SetShaderSampler_run, ?SetShaderSampler_nil, ?SetShaderMatrix_run,
      ?SetShaderInt_run, ?SetShaderFloat_run, ?SetShaderBool_run, ?AttachSourceFile_run,
      ?AttachSourceFile_nil; unfold one_call; cbn [fst];
    try (split; [done|by intros (? & ? & ? & _)]).
  split; [by exists name, v|]. by intros (? & ? & [= <- <-] & ?).
Qed.

Lemma shader_op_never_panics N sh op s msg : (run_shader_op N sh op s).1 ≠ Panicked msg.
Proof.
  destruct sh as [sh|], op; cbn [run_shader_op]; unfold go_map;
    rewrite ?AttachSource_run, ?AttachSourceFile_run, ?Build_run, ?Log_run, ?Platform_run,
      ?AttachSource_nil, ?AttachSourceFile_nil, ?Build_nil, ?Log_nil, ?Platform_nil,
      ?Destroy_run; unfold one_call; done.
Qed.

Lemma single_row_fits (row : list Z) :
  4 * len row < 2 ^ 64 → fits_buffer (IntVector [row]).
Proof.
  intros Hrow. destruct (IntVector_facts [row]) as (He & Hc & Hs & _).
  unfold fits_buffer. rewrite He, Hc, Hs, len_fmap. cbn [concat]. rewrite app_nil_r.
  change ([row] !!! 0%nat) with row. change (len [row]) with 1. lia.
Qed.

(** X2: the only panic of the file is Go's index check of the array
    view.  When an operation panics, it is a vector binder given a
    non-empty input of more than 2^30 - 1 scalars whose scratch
    allocation succeeded, and the panic is the run-time error "index out
    of range [1073741823] with length 1073741823"; and a vector binder
    given such an input, of scalars that fit the scratch buffer, does
    panic so.  No other function of the file panics. *)
Theorem only_long_vectors_panic N o s :
  (∀ msg, (run_operation N o s).1 = Panicked msg →
     msg = "runtime error: index out of range [1073741823] with length 1073741823" ∧
     ∃ name v, o = Bound (BindVector name v) ∧ rows_given v ≠ [] ∧
               alloc_ok N name v s = true ∧ garr_len < len (concat (rows_sent v))) ∧
  (∀ name v, o = Bound (BindVector name v) → rows_given v ≠ [] →
     alloc_ok N name v s = true → garr_len < len (concat (rows_sent v)) → fits_buffer v →
     (run_operation N o s).1 =
       Panicked "runtime error: index out of range [1073741823] with length 1073741823").
Proof.
  rewrite <- index_panic_garr. split.
  - intros msg.
    destruct o as [platform|sh op|sh|op|platform typ]; cbn [run_operation];
      rewrite forget_panics.
    + rewrite CreateShader_run. by cbn.
    + by intros ?%shader_op_never_panics.
    + rewrite UseShader_run. by cbn.
    + rewrite named_panics_iff.
      intros (name & v & -> & (-> & H)%vector_panics_iff). split; [done|]. by exists name, v.
    + rewrite DefaultShaderSource_run. by cbn.
  - intros name v -> Hrows Halloc Hlong _. cbn [run_operation]. rewrite forget_panics.
    apply named_panics_iff. exists name, v. split; [done|]. by apply vector_panics_iff.
Qed.

Lemma only_long_vectors_panic_witness :
  (run_operation native_ok (Bound (BindVector "u" (IntVector [long_row]))) s0).1 =
    Panicked "runtime error: index out of range [1073741823] with length 1073741823".
Proof.
  destruct (IntVector_facts [long_row]) as (_ & _ & Hsent & Hnil).
  apply (proj2 (only_long_vectors_panic native_ok
                  (Bound (BindVector "u" (IntVector [long_row]))) s0) "u" (IntVector [long_row])).
  - reflexivity.
  - rewrite Hnil. discriminate.
  - reflexivity.
  - rewrite Hsent, len_fmap. cbn [concat]. rewrite app_nil_r, long_row_length, garr_len_val. lia.
  - apply single_row_fits. rewrite long_row_length. lia.
Defined.

(** ** Pointers handed to Allegro *)

Lemma one_call_calls N str c failure s :
  ∃ ok, al_calls (new_events s (one_call N str c failure s).2) =
        [(c (Some (next s)), RBool ok, heap_named str s)].
Proof. eexists. unfold one_call. cbn [snd]. by erewrite new_events_app by reflexivity. Qed.

Lemma emit_calls c r s :
  al_calls (new_events s (emit (EvCall c r (heap s)) s)) = [(c, r, heap s)].
Proof. by erewrite new_events_app by reflexivity. Qed.

Lemma heap_named_lookup str s : heap_named str s !! next s = Some (CStr str).
Proof. apply lookup_insert_eq. Qed.

Lemma marshal_heap_name name s size vals :
  4 * len vals ≤ size →
  poke_all (Pos.succ (next s)) 0 vals
    (<[Pos.succ (next s) := CMem size ∅]> (heap_named name s)) !! next s = Some (CStr name).
Proof.
  intros Hsize.
  rewrite (poke_all_block _ size 0 vals ∅) by (first [lia | apply lookup_insert_eq]).
  rewrite !lookup_insert_ne by lia. apply heap_named_lookup.
Qed.

Lemma marshal_heap_buffer name s size vals :
  poke_all (Pos.succ (next s)) 0 vals
    (<[Pos.succ (next s) := CMem size ∅]> (heap_named name s)) !! Pos.succ (next s)
  = Some (CMem size (poke_cells size 0 vals ∅)).
Proof.
  apply poke_all_lookup, lookup_insert_eq.
Qed.

(** What the one Allegro call of a vector binder looks like, if any. *)
Lemma vector_calls N name v s c r mem :
  (c, r, mem) ∈ al_calls (new_events s (SetShaderVectorOf N name v s).2) →
  (fits_buffer v → mem !! next s = Some (CStr name)) ∧
  ((rows_given v = [] ∧ c = bind_entry v (Some (next s)) 0 None 0) ∨
   (rows_given v ≠ [] ∧
    c = bind_entry v (Some (next s)) (C_int (components v))
          (Some (Pos.succ (next s))) (C_int (elems v)) ∧
    mem !! Pos.succ (next s) =
      Some (CMem (scratch_bytes v) (poke_cells (scratch_bytes v) 0 (concat (rows_sent v)) ∅)))).
Proof.
  destruct (decide (rows_given v = [])) as [Hnil|Hrows].
  { rewrite vector_run_empty by done. cbn [snd].
    erewrite new_events_app by reflexivity. cbn.
    intros [= -> _ ->]%list_elem_of_singleton.
    split; [intros _; apply heap_named_lookup|by left]. }
  destruct (alloc_ok N name v s) eqn:Halloc.
  2:{ rewrite vector_run_alloc_fails by done. cbn [snd].
      erewrite new_events_app by reflexivity. cbn. by intros ?%not_elem_of_nil. }
  destruct (Z_le_gt_dec (len (concat (rows_sent v))) garr_len) as [Hfit|Hlong].
  - rewrite vector_run_marshals by done. cbn [snd].
    erewrite new_events_app by reflexivity. rewrite al_calls_marshal.
    intros [= -> _ ->]%list_elem_of_singleton.
    split; [intros Hbuf; by apply marshal_heap_name, fits_buffer_all|].
    right. split; [done|]. split; [done|]. apply marshal_heap_buffer.
  - destruct (vector_run_panics N name v s) as (pre & post & _ & _ & ->); [done|done|lia|].
    cbn [snd]. erewrite new_events_app by reflexivity. rewrite al_calls_panic.
    by intros ?%not_elem_of_nil.
Qed.

Lemma string_args_bind_entry v a comps buf n :
  string_args (bind_entry v a comps buf n) = [a].
Proof. by destruct v. Qed.

Ltac one_call_live :=
  match goal with
  | |- context [one_call ?N ?str ?c ?failure ?s] =>
      destruct (one_call_calls N str c failure s) as [? ->]
  end;
  intros [= -> _ ->]%list_elem_of_singleton p Hp; cbn in Hp;
  apply list_elem_of_singleton in Hp as ->;
  eexists _, _; split; [reflexivity|]; split; [reflexivity|]; apply heap_named_lookup.

Ltac direct_call_live :=
  rewrite emit_calls; intros [= -> _ ->]%list_elem_of_singleton p Hp; cbn in Hp;
  by apply not_elem_of_nil in Hp.

Ltac no_call_live :=
  cbn [snd]; rewrite new_events_refl; cbn; by intros ?%not_elem_of_nil.

(** X3: for every operation whose vector input, if it has one, fits
    its scratch buffer: every C string handed to Allegro points, at the
    moment of the call, to a live C copy of the Go string the operation
    was given (the uniform name, the source text or the file name):
    never NULL, never a freed block. *)
Theorem strings_reach_allegro N o s c r mem :
  within_buffer o →
  (c, r, mem) ∈ al_calls (new_events s (run_operation N o s).2) →
  strings_live c mem (text_of o).
Proof.
  unfold strings_live. intros Hbuf.
  destruct o as [platform|sh op|sh|op|platform typ]; cbn [run_operation text_of];
    rewrite forget_state.
  - rewrite CreateShader_run. cbn [snd]. direct_call_live.
  - destruct sh as [sh|], op; cbn [run_shader_op]; unfold go_map;
      rewrite ?AttachSource_run, ?AttachSourceFile_run, ?Build_run, ?Log_run, ?Platform_run,
        ?AttachSource_nil, ?AttachSourceFile_nil, ?Build_nil, ?Log_nil, ?Platform_nil,
        ?Destroy_run; cbn [snd];
      first [one_call_live | direct_call_live | no_call_live].
  - rewrite UseShader_run. cbn [snd]. direct_call_live.
  - destruct op as [name [bmp|] unit|name matrix|name i|name f|name b|name v|[sh|] stype filename];
      cbn [run_named name_of];
      rewrite ?SetShaderSampler_run, ?SetShaderSampler_nil, ?SetShaderMatrix_run,
        ?SetShaderInt_run, ?SetShaderFloat_run, ?SetShaderBool_run, ?AttachSourceFile_run,
        ?AttachSourceFile_nil;
      try first [one_call_live | no_call_live].
    intros (Hname & [[_ ->]|(_ & -> & _)])%vector_calls p Hp;
      rewrite string_args_bind_entry in Hp; apply list_elem_of_singleton in Hp as ->;
      (eexists _, _; split; [reflexivity|]; split; [reflexivity|]; exact (Hname Hbuf)).
  - rewrite DefaultShaderSource_run. cbn [snd]. direct_call_live.
Qed.

Lemma strings_reach_allegro_witness :
  within_buffer (Bound (BindVector "tint" (IntVector [[1; 2]; [3]]))) ∧
  (al_set_shader_int_vector (Some 1%positive) 2 (Some 2%positive) 2, RBool true,
   poke_all 2 0 [CInt 1; CInt 2; CInt 3] (<[2%positive := CMem 16 ∅]> (heap_named "tint" s0)))
    ∈ al_calls (new_events s0
        (run_operation native_ok (Bound (BindVector "tint" (IntVector [[1; 2]; [3]]))) s0).2) ∧
  strings_live (al_set_shader_int_vector (Some 1%positive) 2 (Some 2%positive) 2)
    (poke_all 2 0 [CInt 1; CInt 2; CInt 3] (<[2%positive := CMem 16 ∅]> (heap_named "tint" s0)))
    (Some "tint").
Proof.
  assert (Hbuf : within_buffer (Bound (BindVector "tint" (IntVector [[1; 2]; [3]]))))
    by (split; [vm_compute; discriminate|reflexivity]).
  assert (H : (al_set_shader_int_vector (Some 1%positive) 2 (Some 2%positive) 2, RBool true,
               poke_all 2 0 [CInt 1; CInt 2; CInt 3]
                 (<[2%positive := CMem 16 ∅]> (heap_named "tint" s0)))
                ∈ al_calls (new_events s0
                    (run_operation native_ok
                       (Bound (BindVector "tint" (IntVector [[1; 2]; [3]]))) s0).2))
    by (vm_compute; left).
  split; [exact Hbuf|]. split; [exact H|].
  exact (strings_reach_allegro native_ok _ s0 _ _ _ Hbuf H).
Defined.

(** Without the hypothesis the statement fails: the third store of the
    input [[1]; [3; 4]] misses the block of two cells, and the copy of
    the name is lost by the time of the bind call. *)
Lemma overrun_loses_name :
  ∃ c r mem,
    al_calls (new_events s0 (SetShaderIntVector native_ok "tint" [[1]; [3; 4]] s0).2)
      = [(c, r, mem)] ∧
    mem !! 1%positive = Some CLost.
Proof. eexists _, _, _. split; [reflexivity|]. by vm_compute. Qed.

(** X4: in the bind call of a vector binder the buffer is NULL exactly
    when the input is empty, and then components and elements are 0;
    otherwise it is a live block of the requested size, other than the
    copy of the name, and the counts are [C.int] of the length of row 0
    and of the number of rows. *)
Theorem vector_buffer_argument N name v s c r mem :
  (c, r, mem) ∈ al_calls (new_events s (SetShaderVectorOf N name v s).2) →
  ∃ comps buf n,
    c = bind_entry v (Some (next s)) comps buf n ∧
    (buf = None ↔ rows_given v = []) ∧
    (buf = None → comps = 0 ∧ n = 0) ∧
    (∀ p, buf = Some p →
       p ≠ next s ∧ comps = C_int (components v) ∧ n = C_int (elems v) ∧
       ∃ cells, mem !! p = Some (CMem (scratch_bytes v) cells)).
Proof.
  intros (_ & [[Hnil ->]|(Hrows & -> & Hbuf)])%vector_calls; eexists _, _, _;
    (split; [reflexivity|]).
  - split; [done|]. split; [done|]. by intros p [=].
  - split; [split; [by intros [=]|done]|]. split; [by intros [=]|].
    intros p [= <-]. split; [lia|]. split; [done|]. split; [done|]. by eexists.
Qed.

Lemma vector_buffer_argument_witness :
  (al_set_shader_int_vector (Some 1%positive) 2 (Some 2%positive) 2, RBool true,
   poke_all 2 0 [CInt 1; CInt 2; CInt 3; CInt 4]
     (<[2%positive := CMem 16 ∅]> (heap_named "v" s0)))
    ∈ al_calls (new_events s0
        (SetShaderVectorOf native_ok "v" (IntVector [[1; 2]; [3; 4]]) s0).2) ∧
  ∃ comps buf n,
    al_set_shader_int_vector (Some 1%positive) 2 (Some 2%positive) 2
      = al_set_shader_int_vector (Some 1%positive) comps buf n ∧
    (buf = None ↔ rows_given (IntVector [[1; 2]; [3; 4]]) = []) ∧
    (∀ p, buf = Some p →
       p ≠ 1%positive ∧ comps = 2 ∧ n = 2 ∧
       ∃ cells,
         poke_all 2 0 [CInt 1; CInt 2; CInt 3; CInt 4]
           (<[2%positive := CMem 16 ∅]> (heap_named "v" s0)) !! p = Some (CMem 16 cells)).
Proof.
  assert (H : (al_set_shader_int_vector (Some 1%positive) 2 (Some 2%positive) 2, RBool true,
               poke_all 2 0 [CInt 1; CInt 2; CInt 3; CInt 4]
                 (<[2%positive := CMem 16 ∅]> (heap_named "v" s0)))
                ∈ al_calls (new_events s0
                    (SetShaderVectorOf native_ok "v" (IntVector [[1; 2]; [3; 4]]) s0).2))
    by (vm_compute; left).
  split; [exact H|].
  destruct (vector_buffer_argument native_ok "v" (IntVector [[1; 2]; [3; 4]]) s0 _ _ _ H)
    as (comps & buf & n & Hc & Hiff & _ & Hsome).
  exists comps, buf, n. split; [exact Hc|]. split; [exact Hiff|exact Hsome].
Defined.

(** ** Results and calls *)

Lemma one_call_outcome N str c failure s :
  ∃ ok, al_calls (new_events s (one_call N str c failure s).2) =
          [(c (Some (next s)), RBool ok, heap_named str s)] ∧
        (one_call N str c failure s).1 = Done (if ok then None else Some failure).
Proof.
  eexists. unfold one_call. cbn [fst snd]. split; [|reflexivity].
  by erewrite new_events_app by reflexivity.
Qed.

Ltac one_call_success :=
  match goal with
  | |- context [one_call ?N ?str ?c ?failure ?s] =>
      destruct (one_call_outcome N str c failure s) as ([] & -> & ->)
  end;
  (split; [intros H; first [discriminate H | eexists _, _; reflexivity]
          | intros (? & ? & ?); congruence]).

(** X5: a uniform binder or [AttachSourceFile] returns a nil error
    exactly when it made one Allegro call and that call answered true:
    success is never reported without the native success. *)
Theorem success_is_native_success N op s :
  (run_named N op s).1 = Done None ↔
  ∃ c mem, al_calls (new_events s (run_named N op s).2) = [(c, RBool true, mem)].
Proof.
  destruct op as [name [bmp|] unit|name matrix|name i|name f|name b|name v|[sh|] stype filename];
    cbn [run_named];
    rewrite ?SetShaderSampler_run, ?SetShaderSampler_nil, ?SetShaderMatrix_run,
      ?SetShaderInt_run, ?SetShaderFloat_run, ?SetShaderBool_run, ?AttachSourceFile_run,
      ?AttachSourceFile_nil;
    try one_call_success.
  - cbn [fst snd]. rewrite new_events_refl. split; [done|]. by intros (? & ? & ?).
  - destruct (vector_run_summary N name v s) as [[-> [->| ->]]|(c & [] & mem & -> & ->)].
    + split; [done|]. by intros (? & ? & ?).
    + split; [done|]. by intros (? & ? & ?).
    + split; [by exists c, mem|done].
    + split; [done|]. intros (? & ? & ?). congruence.
  - cbn [fst snd]. rewrite new_events_refl. split; [done|]. by intros (? & ? & ?).
Qed.

Lemma shader_op_on_handle N (sh : handle) op s :
  ∃ c r mem,
    al_calls (new_events s (run_shader_op N (Some sh) op s).2) = [(c, r, mem)] ∧
    shader_arg c = Some (Some sh) ∧
    ((run_shader_op N (Some sh) op s).1 = Done None ↔ r ≠ RBool false) ∧
    (run_shader_op N (Some sh) op s).1 ≠ Done (Some ShaderIsNull).
Proof.
  destruct op; cbn [run_shader_op]; unfold go_map;
    rewrite ?AttachSource_run, ?AttachSourceFile_run, ?Build_run, ?Log_run, ?Platform_run,
      ?Destroy_run.
  1,2: match goal with
       | |- context [one_call ?N ?str ?c ?failure ?s] =>
           destruct (one_call_outcome N str c failure s) as ([] & -> & ->)
       end; eexists _, _, _; (split; [reflexivity|]); (split; [reflexivity|]);
       (split; [split; congruence|done]).
  1: destruct (native_bool N (trace s) (heap s) (al_build_shader (Some sh))).
  all: cbn [fst snd]; rewrite emit_calls; eexists _, _, _; (split; [reflexivity|]);
    (split; [reflexivity|]); (split; [split; congruence|done]).
Qed.

(** X6: on a non-nil shader each method ([AttachSource],
    [AttachSourceFile], [Build], [Log], [Platform], [Destroy]) makes
    exactly one Allegro call, on that very shader; it returns a nil error
    unless the call answered false, and never [ShaderIsNull]. *)
Theorem method_calls_on_receiver N (sh : handle) op s :
  ∃ c r mem,
    al_calls (new_events s (run_shader_op N (Some sh) op s).2) = [(c, r, mem)] ∧
    shader_arg c = Some (Some sh) ∧
    ((run_shader_op N (Some sh) op s).1 = Done None ↔ r ≠ RBool false) ∧
    (run_shader_op N (Some sh) op s).1 ≠ Done (Some ShaderIsNull).
Proof. apply shader_op_on_handle. Qed.

(** X7: no function of the file calls Allegro more than once. *)
Theorem at_most_one_call N o s :
  (length (al_calls (new_events s (run_operation N o s).2)) ≤ 1)%nat.
Proof.
  destruct o as [platform|sh op|sh|op|platform typ]; cbn [run_operation];
    rewrite forget_state.
  - rewrite CreateShader_run. cbn [snd]. by rewrite emit_calls.
  - destruct sh as [sh|].
    + destruct op; cbn [run_shader_op]; unfold go_map;
        rewrite ?AttachSource_run, ?AttachSourceFile_run, ?Build_run, ?Log_run, ?Platform_run,
          ?Destroy_run;
        try (match goal with
             | |- context [one_call ?N ?str ?c ?failure ?s] =>
                 destruct (one_call_calls N str c failure s) as [? ->]
             end; done);
        cbn [snd]; by rewrite emit_calls.
    + destruct op; cbn [run_shader_op]; unfold go_map;
        rewrite ?AttachSource_nil, ?AttachSourceFile_nil, ?Build_nil, ?Log_nil, ?Platform_nil,
          ?Destroy_run; cbn [snd]; rewrite ?new_events_refl, ?emit_calls; cbn; lia.
  - rewrite UseShader_run. cbn [snd]. by rewrite emit_calls.
  - destruct op as [name [bmp|] unit|name matrix|name i|name f|name b|name v|[sh|] stype filename];
      cbn [run_named];
      rewrite ?SetShaderSampler_run, ?SetShaderSampler_nil, ?SetShaderMatrix_run,
        ?SetShaderInt_run, ?SetShaderFloat_run, ?SetShaderBool_run, ?AttachSourceFile_run,
        ?AttachSourceFile_nil;
      try (match goal with
           | |- context [one_call ?N ?str ?c ?failure ?s] =>
               destruct (one_call_calls N str c failure s) as [? ->]
           end; done);
      try (cbn [snd]; rewrite new_events_refl; cbn; lia).
    destruct (vector_run_summary N name v s) as [[-> _]|(c & ok & mem & -> & _)]; cbn; lia.
  - rewrite DefaultShaderSource_run. cbn [snd]. by rewrite emit_calls.
Qed.

(** ** Failure messages *)

Lemma snoc_inj (s1 s2 : string) c :
  s1 +:+ String c EmptyString = s2 +:+ String c EmptyString → s1 = s2.
Proof.
  revert s2. induction s1 as [|a s1 IH]; intros [|b s2]; cbn; intros H.
  - done.
  - injection H as _ H. by destruct s2.
  - injection H as _ H. by destruct s1.
  - injection H as -> H. f_equal. by apply IH.
Qed.

Lemma failure_format_inj k1 k2 name1 name2 :
  Sprintf (failure_format k1) name1 = Sprintf (failure_format k2) name2 →
  k1 = k2 ∧ name1 = name2.
Proof.
  destruct k1, k2; simpl; intros H; try congruence;
    (split; [reflexivity|]); simplify_eq; by apply snoc_inj in H.
Qed.

Lemma named_failure N op s :
  native_failed (new_events s (run_named N op s).2) →
  (run_named N op s).1 =
    Done (Some (errorString (Sprintf (failure_format (kind_of op)) (name_of op)))).
Proof.
  destruct op as [name [bmp|] unit|name matrix|name i|name f|name b|name v|[sh|] stype filename];
    cbn [run_named name_of kind_of];
    rewrite ?SetShaderSampler_run, ?SetShaderSampler_nil, ?SetShaderMatrix_run,
      ?SetShaderInt_run, ?SetShaderFloat_run, ?SetShaderBool_run, ?AttachSourceFile_run,
      ?AttachSourceFile_nil;
    try (intros H; by apply one_call_failure);
    try (cbn [snd]; rewrite new_events_refl; by intros ?%native_failed_nil).
  unfold native_failed.
  destruct (vector_run_summary N name v s) as [[-> _]|(c & ok & mem & -> & ->)].
  - by intros ?%native_failed_nil.
  - intros (c' & mem' & [= _ <- _]%list_elem_of_singleton). by destruct v.
Qed.

(** X8: the error of a failed native call identifies its origin: two
    such errors, from any two binders (or [AttachSourceFile]) in any two
    states, are equal only if they come from the same function and carry
    the same name. *)
Theorem failure_identifies_operation N1 N2 op1 op2 s1 s2 :
  native_failed (new_events s1 (run_named N1 op1 s1).2) →
  native_failed (new_events s2 (run_named N2 op2 s2).2) →
  (run_named N1 op1 s1).1 = (run_named N2 op2 s2).1 →
  kind_of op1 = kind_of op2 ∧ name_of op1 = name_of op2.
Proof.
  intros H1%named_failure H2%named_failure. rewrite H1, H2.
  intros [= H]. by apply failure_format_inj.
Qed.

Lemma failure_identifies_operation_witness :
  native_failed (new_events s0 (run_named native_rejects (BindInt "n" 1) s0).2) ∧
  native_failed (new_events s0 (run_named native_rejects (BindInt "n" 2) s0).2) ∧
  (run_named native_rejects (BindInt "n" 1) s0).1 = (run_named native_rejects (BindInt "n" 2) s0).1 ∧
  kind_of (BindInt "n" 1) = kind_of (BindInt "n" 2) ∧
  name_of (BindInt "n" 1) = name_of (BindInt "n" 2).
Proof.
  assert (H1 : native_failed (new_events s0 (run_named native_rejects (BindInt "n" 1) s0).2))
    by (eexists _, _; vm_compute; left).
  assert (H2 : native_failed (new_events s0 (run_named native_rejects (BindInt "n" 2) s0).2))
    by (eexists _, _; vm_compute; left).
  assert (H3 : (run_named native_rejects (BindInt "n" 1) s0).1 =
               (run_named native_rejects (BindInt "n" 2) s0).1) by reflexivity.
  split; [exact H1|]. split; [exact H2|]. split; [exact H3|].
  exact (failure_identifies_operation _ _ _ _ _ _ H1 H2 H3).
Defined.

(** ** Integers as C receives them *)

Lemma C_int_congruent i j : i mod 2 ^ 32 = j mod 2 ^ 32 → C_int i = C_int j.
Proof. intros H. unfold C_int, wrap. by rewrite H. Qed.

Lemma C_int_range z : -2147483648 ≤ C_int z < 2147483648.
Proof.
  unfold C_int, wrap. change (2 ^ 32) with 4294967296. change (2 ^ (32 - 1)) with 2147483648.
  pose proof (Z.mod_pos_bound z 4294967296 eq_refl).
  destruct (Z.ltb_spec (z mod 4294967296) 2147483648); lia.
Qed.

Lemma C_int_mod z : C_int z mod 2 ^ 32 = z mod 2 ^ 32.
Proof.
  unfold C_int, wrap. change (2 ^ 32) with 4294967296. change (2 ^ (32 - 1)) with 2147483648.
  destruct (Z.ltb_spec (z mod 4294967296) 2147483648).
  - apply Z.mod_mod. lia.
  - replace (z mod 4294967296 - 4294967296) with (z mod 4294967296 + (-1) * 4294967296) by lia.
    rewrite Z.mod_add by lia. apply Z.mod_mod. lia.
Qed.

Lemma C_int_exact_iff z : C_int z = z ↔ -2147483648 ≤ z < 2147483648.
Proof.
  split; [intros <-; apply C_int_range|apply C_int_small].
Qed.

(** X9: [SetShaderInt] hands to Allegro the representative of [i]
    modulo 2^32 in the range of a C [int]: it is [i] itself exactly when
    [i] lies in [-2^31, 2^31), and two integers congruent modulo 2^32
    give the same run. *)
Theorem SetShaderInt_truncates N name i s :
  (∃ r mem, al_calls (new_events s (SetShaderInt N name i s).2) =
              [(al_set_shader_int (Some (next s)) (C_int i), r, mem)]) ∧
  -2147483648 ≤ C_int i < 2147483648 ∧
  C_int i mod 2 ^ 32 = i mod 2 ^ 32 ∧
  (C_int i = i ↔ -2147483648 ≤ i < 2147483648) ∧
  ∀ j, i mod 2 ^ 32 = j mod 2 ^ 32 → SetShaderInt N name j s = SetShaderInt N name i s.
Proof.
  split.
  { rewrite SetShaderInt_run.
    destruct (one_call_calls N name (λ name_, al_set_shader_int name_ (C_int i))
                (fmt_Errorf ("failed to set shader int for " +:+ dquote +:+ "%s" +:+ dquote) name) s)
      as [ok ->]. by eexists _, _. }
  split; [apply C_int_range|]. split; [apply C_int_mod|]. split; [apply C_int_exact_iff|].
  intros j Hj. rewrite !SetShaderInt_run. by rewrite (C_int_congruent i j Hj).
Qed.

(** ** A first row without scalars *)

(** X10: when row 0 of a non-empty input is empty, the one block the
    run allocates is requested with 0 bytes, and every scalar of the
    later rows is nevertheless stored through it, the [k]-th one at cell
    [k]: the stores stay inside the block only when there is no scalar
    at all. *)
Theorem empty_first_row_overruns N name v s :
  rows_given v ≠ [] → components v = 0 → alloc_ok N name v s = true →
  len (concat (rows_sent v)) ≤ garr_len →
  ∃ buf,
    mallocs_of (new_events s (SetShaderVectorOf N name v s).2) = [(0, Some buf)] ∧
    writes_in_order (rows_sent v) buf s (SetShaderVectorOf N name v s).2 ∧
    (stores_within buf 0 (new_events s (SetShaderVectorOf N name v s).2)
     ↔ concat (rows_sent v) = []).
Proof.
  intros Hrows Hcomp Halloc Hlen.
  assert (Hbytes : scratch_bytes v = 0).
  { rewrite scratch_bytes_exact; rewrite Hcomp, Z.mul_0_r; [done|]. done. }
  exists (Pos.succ (next s)). unfold writes_in_order, stores_within.
  rewrite vector_run_marshals by done. cbn [snd].
  erewrite new_events_app by reflexivity.
  rewrite stores_of_marshal, mallocs_of_marshal by done. rewrite Hbytes.
  split; [done|]. split; [apply store_events_in_order|].
  change 0 with (4 * 0) at 1. rewrite store_events_within by done.
  unfold len. destruct (concat (rows_sent v)); cbn [length]; split; (done || lia).
Qed.

Lemma empty_first_row_overruns_witness :
  rows_given (IntVector [[]; [7]]) ≠ [] ∧ components (IntVector [[]; [7]]) = 0 ∧
  alloc_ok native_ok "v" (IntVector [[]; [7]]) s0 = true ∧
  len (concat (rows_sent (IntVector [[]; [7]]))) ≤ garr_len ∧
  ∃ buf,
    mallocs_of (new_events s0 (SetShaderVectorOf native_ok "v" (IntVector [[]; [7]]) s0).2)
      = [(0, Some buf)] ∧
    writes_in_order [[]; [CInt 7]] buf s0
      (SetShaderVectorOf native_ok "v" (IntVector [[]; [7]]) s0).2 ∧
    (stores_within buf 0
       (new_events s0 (SetShaderVectorOf native_ok "v" (IntVector [[]; [7]]) s0).2)
     ↔ [CInt 7] = []).
Proof.
  assert (H1 : rows_given (IntVector [[]; [7]]) ≠ []) by (vm_compute; discriminate).
  assert (H2 : components (IntVector [[]; [7]]) = 0) by reflexivity.
  assert (H3 : alloc_ok native_ok "v" (IntVector [[]; [7]]) s0 = true) by reflexivity.
  assert (H4 : len (concat (rows_sent (IntVector [[]; [7]]))) ≤ garr_len)
    by (vm_compute; discriminate).
  split; [exact H1|]. split; [exact H2|]. split; [exact H3|]. split; [exact H4|].
  exact (empty_first_row_overruns native_ok "v" (IntVector [[]; [7]]) s0 H1 H2 H3 H4).
Defined.

(** ** Integer vectors as C receives them *)

Lemma components_sent v : components v = len (rows_sent v !!! 0%nat).
Proof.
  destruct v; unfold components, rows_given, rows_sent; by rewrite !first_row_fmap, !len_fmap.
Qed.

Lemma elems_sent v : elems v = len (rows_sent v).
Proof. unfold elems, len. by rewrite rows_sent_length. Qed.

Lemma rows_given_nil_sent v : rows_given v = [] ↔ rows_sent v = [].
Proof.
  pose proof (rows_sent_length v) as H.
  split; intros E; rewrite E in H; cbn in H.
  - by apply length_zero_iff_nil.
  - symmetry in H. by apply length_zero_iff_nil.
Qed.

(** A run on integers depends on them only through what is sent. *)
Lemma int_vector_run_ext N name i j s :
  rows_sent (IntVector i) = rows_sent (IntVector j) →
  SetShaderIntVector N name i s = SetShaderIntVector N name j s.
Proof.
  intros Hsent. rewrite !SetShaderVectorOf_int.
  assert (He : elems (IntVector i) = elems (IntVector j)) by (by rewrite !elems_sent, Hsent).
  assert (Hc : components (IntVector i) = components (IntVector j))
    by (by rewrite !components_sent, Hsent).
  assert (Hb : scratch_bytes (IntVector i) = scratch_bytes (IntVector j))
    by (unfold scratch_bytes; by rewrite He, Hc).
  assert (Ha : alloc_ok N name (IntVector i) s = alloc_ok N name (IntVector j) s)
    by (unfold alloc_ok; by rewrite Hb).
  assert (Hn : rows_given (IntVector i) = [] ↔ rows_given (IntVector j) = [])
    by (by rewrite !rows_given_nil_sent, Hsent).
  destruct (decide (rows_given (IntVector i) = [])) as [Hnil|Hrows].
  { rewrite !vector_run_empty by tauto. reflexivity. }
  assert (Hrows' : rows_given (IntVector j) ≠ []) by tauto.
  destruct (alloc_ok N name (IntVector i) s) eqn:Halloc.
  2:{ rewrite !vector_run_alloc_fails by congruence. by rewrite Hb. }
  destruct (Z_le_gt_dec (len (concat (rows_sent (IntVector i)))) garr_len) as [Hfit|Hlong].
  - rewrite (vector_run_marshals N name (IntVector i)) by done.
    rewrite (vector_run_marshals N name (IntVector j)) by (by rewrite <- ?Hsent, <- ?Ha).
    cbn zeta. by rewrite Hb, Hc, He, Hsent.
  - destruct (vector_run_panics N name (IntVector i) s)
      as (pre1 & post1 & E1 & Hpre1 & ->); [done|done|lia|].
    destruct (vector_run_panics N name (IntVector j) s)
      as (pre2 & post2 & E2 & Hpre2 & ->); [done|congruence|rewrite <- Hsent; lia|].
    assert (pre1 = pre2) as ->.
    { rewrite Hsent, E2 in E1. apply app_inj_1 in E1 as [-> _]; [done|].
      unfold len in Hpre1, Hpre2. lia. }
    cbn zeta. by rewrite Hb.
Qed.

Lemma rows_sent_congruent (i j : list (list Z)) :
  Forall2 (Forall2 (λ x y, x mod 2 ^ 32 = y mod 2 ^ 32)) i j →
  rows_sent (IntVector i) = rows_sent (IntVector j).
Proof.
  unfold rows_sent. induction 1 as [|row1 row2 i j Hrow _ IH]; [done|].
  cbn [fmap list_fmap] in *. f_equal; [|exact IH].
  induction Hrow as [|x y row1 row2 Hxy _ IHrow]; [done|].
  cbn [fmap list_fmap]. f_equal; [|exact IHrow]. f_equal. by apply C_int_congruent.
Qed.

(** X11: [SetShaderIntVector] depends on the integers of its input only
    modulo 2^32: inputs of the same shape whose scalars are pairwise
    congruent give the same run. *)
Theorem SetShaderIntVector_truncates N name i j s :
  Forall2 (Forall2 (λ x y, x mod 2 ^ 32 = y mod 2 ^ 32)) i j →
  SetShaderIntVector N name i s = SetShaderIntVector N name j s.
Proof. intros H. by apply int_vector_run_ext, rows_sent_congruent. Qed.

Lemma SetShaderIntVector_truncates_witness :
  Forall2 (Forall2 (λ x y, x mod 2 ^ 32 = y mod 2 ^ 32)) [[4294967297; -1]] [[1; 4294967295]] ∧
  SetShaderIntVector native_ok "v" [[4294967297; -1]] s0 =
  SetShaderIntVector native_ok "v" [[1; 4294967295]] s0.
Proof.
  assert (H : Forall2 (Forall2 (λ x y, x mod 2 ^ 32 = y mod 2 ^ 32))
                [[4294967297; -1]] [[1; 4294967295]])
    by (repeat constructor).
  split; [exact H|]. exact (SetShaderIntVector_truncates native_ok "v" _ _ s0 H).
Defined.

(** ** A created shader *)

(** X13: a shader that [CreateShader] returned with a nil error is not
    nil and is the one Allegro created; every method called on it
    afterwards makes its Allegro call on it and never returns
    [ShaderIsNull]. *)
Theorem created_shader_is_usable N platform s sh s1 op :
  CreateShader N platform s = (Done (sh, None), s1) →
  sh ≠ None ∧
  al_calls (new_events s s1) = [(al_create_shader (C_enum platform), RShader sh, heap s)] ∧
  (run_shader_op N sh op s1).1 ≠ Done (Some ShaderIsNull) ∧
  ∃ c r mem,
    al_calls (new_events s1 (run_shader_op N sh op s1).2) = [(c, r, mem)] ∧
    shader_arg c = Some sh.
Proof.
  rewrite CreateShader_run. cbn zeta.
  destruct (native_shader N (trace s) (heap s) (al_create_shader (C_enum platform)))
    as [h|] eqn:Hnative; [|discriminate].
  intros [= <- <-]. split; [done|]. split; [apply emit_calls|].
  destruct (shader_op_on_handle N h op (emit (EvCall (al_create_shader (C_enum platform))
                                                (RShader (Some h)) (heap s)) s))
    as (c & r & mem & Hcalls & Harg & _ & Hres).
  split; [exact Hres|]. by exists c, r, mem.
Qed.

Lemma created_shader_is_usable_witness :
  CreateShader native_ok 0 s0 =
    (Done (Some 1%positive, None),
     emit (EvCall (al_create_shader 0) (RShader (Some 1%positive)) ∅) s0) ∧
  (run_shader_op native_ok (Some 1%positive) OpBuild
     (emit (EvCall (al_create_shader 0) (RShader (Some 1%positive)) ∅) s0)).1
    ≠ Done (Some ShaderIsNull).
Proof.
  assert (H : CreateShader native_ok 0 s0 =
              (Done (Some 1%positive, None),
               emit (EvCall (al_create_shader 0) (RShader (Some 1%positive)) ∅) s0))
    by reflexivity.
  split; [exact H|].
  exact (proj1 (proj2 (proj2 (created_shader_is_usable native_ok 0 s0 _ _ OpBuild H)))).
Defined.

(** ** Cells the loop leaves unwritten *)

Lemma poke_cells_untouched size idx vs cells (k : Z) :
  k < idx ∨ idx + len vs ≤ k ∨ in_block size k = false →
  poke_cells size idx vs cells !! k = cells !! k.
Proof.
  revert idx cells. induction vs as [|v vs IH]; intros idx cells Hk; [done|].
  cbn [poke_cells]. rewrite len_cons in Hk. pose proof (len_nonneg vs).
  rewrite IH by (destruct Hk as [?|[?|?]]; [left; lia|right; left; lia|by right; right]).
  destruct (in_block size idx) eqn:Hin; [|done].
  apply lookup_insert_ne. intros <-. rewrite Hin in Hk.
  destruct Hk as [?|[?|?]]; [lia|lia|done].
Qed.

Lemma poke_cells_written size vs (k : Z) :
  is_Some (poke_cells size 0 vs ∅ !! k) ↔ 0 ≤ k < len vs ∧ in_block size k = true.
Proof.
  split.
  - intros Hsome.
    destruct (decide (0 ≤ k < len vs ∧ in_block size k = true)) as [|Hout]; [done|].
    rewrite poke_cells_untouched in Hsome.
    + rewrite lookup_empty in Hsome. by destruct Hsome.
    + destruct (in_block size k); [|by right; right].
      destruct (Z_lt_ge_dec k 0); [by left|]. right. left. lia.
  - intros [Hk Hin]. unfold len in Hk.
    destruct (lookup_lt_is_Some_2 vs (Z.to_nat k)) as [x Hx]; [lia|].
    exists x. replace k with (0 + Z.of_nat (Z.to_nat k)) by lia.
    apply poke_cells_lookup; [done|]. by replace (0 + Z.of_nat (Z.to_nat k)) with k by lia.
Qed.

(** X12: when the rows hold fewer scalars than N * M, the loop writes
    only the first cells: at the bind call, cell [k] of the buffer has
    been written exactly when [k] is below the smaller of the sum of the
    row lengths and N * M, so Allegro is handed N * M cells of which the
    last ones were never written. *)
Theorem short_rows_leave_cells_unwritten N name v s :
  rows_given v ≠ [] → alloc_ok N name v s = true →
  len (concat (rows_sent v)) ≤ garr_len →
  4 * (elems v * components v) < 2 ^ 64 →
  ∃ r mem cells,
    al_calls (new_events s (SetShaderVectorOf N name v s).2) =
      [(bind_entry v (Some (next s)) (C_int (components v)) (Some (Pos.succ (next s)))
          (C_int (elems v)), r, mem)] ∧
    mem !! Pos.succ (next s) = Some (CMem (4 * (elems v * components v)) cells) ∧
    ∀ k : Z, is_Some (cells !! k) ↔
             0 ≤ k < Z.min (len (concat (rows_sent v))) (elems v * components v).
Proof.
  intros Hrows Halloc Hlen Hfit.
  rewrite vector_run_marshals by done. cbn [snd].
  erewrite new_events_app by reflexivity. rewrite al_calls_marshal.
  eexists _, _, _. split; [reflexivity|].
  rewrite marshal_heap_buffer, scratch_bytes_exact by done. split; [reflexivity|].
  intros k. rewrite poke_cells_written, in_block_iff. lia.
Qed.

Lemma short_rows_leave_cells_unwritten_witness :
  rows_given (IntVector [[1; 2]; [3]]) ≠ [] ∧
  alloc_ok native_ok "v" (IntVector [[1; 2]; [3]]) s0 = true ∧
  len (concat (rows_sent (IntVector [[1; 2]; [3]]))) ≤ garr_len ∧
  4 * (elems (IntVector [[1; 2]; [3]]) * components (IntVector [[1; 2]; [3]])) < 2 ^ 64 ∧
  ∃ r mem cells,
    al_calls (new_events s0 (SetShaderVectorOf native_ok "v" (IntVector [[1; 2]; [3]]) s0).2) =
      [(al_set_shader_int_vector (Some 1%positive) 2 (Some 2%positive) 2, r, mem)] ∧
    mem !! 2%positive = Some (CMem 16 cells) ∧
    (is_Some (cells !! 3) ↔ 0 ≤ 3 < 3).
Proof.
  assert (H1 : rows_given (IntVector [[1; 2]; [3]]) ≠ []) by (vm_compute; discriminate).
  assert (H2 : alloc_ok native_ok "v" (IntVector [[1; 2]; [3]]) s0 = true) by reflexivity.
  assert (H3 : len (concat (rows_sent (IntVector [[1; 2]; [3]]))) ≤ garr_len)
    by (vm_compute; discriminate).
  assert (H4 : 4 * (elems (IntVector [[1; 2]; [3]]) * components (IntVector [[1; 2]; [3]]))
               < 2 ^ 64) by reflexivity.
  split; [exact H1|]. split; [exact H2|]. split; [exact H3|]. split; [exact H4|].
  destruct (short_rows_leave_cells_unwritten native_ok "v" (IntVector [[1; 2]; [3]]) s0
              H1 H2 H3 H4) as (r & mem & cells & Hc & Hm & Hk).
  exists r, mem, cells. split; [exact Hc|]. split; [exact Hm|]. exact (Hk 3).
Defined.
